(** * MP3ify: track resolution and fuzzy matching

    A shallow embedding of [utils.py] and [mp3ify.py].

    - Python [str] values are [string]s (sequences of 8-bit characters);
      [lower()] folds the letters A-Z and [strip()] removes the ASCII
      white space, which is what Python does on ASCII text.
    - Python exceptions are the [Raise] branch of [outcome].
    - Durations in seconds, similarity ratios and thresholds are exact
      rationals [Q]; a ratio is kept in lowest terms, so that equal scores
      are equal terms. The one place where the program adds two floats,
      the key of [max] in [search_youtube_single_track], is computed in
      IEEE-754 binary64 ([Float]), as Python computes it.
    - [difflib.SequenceMatcher] is embedded from CPython's [Lib/difflib.py]
      (the class is built with [isjunk = None] and [autojunk = True], as
      [similarity_ratio] does). *)

From Stdlib Require Import String Ascii List Arith ZArith QArith Qabs Lia Bool.
From Stdlib Require Import Permutation Sorted DecimalString SpecFloat.
From stdpp Require Import gmap strings.
Import ListNotations.

Local Open Scope string_scope.
Local Open Scope list_scope.
Local Open Scope nat_scope.

(** ** Exceptions *)

Inductive exn : Type :=
| ValueError (msg : string)
| UnboundLocalError (var : string)
| RuntimeError (msg : string)
| BackendError (msg : string).

(** [str(e)] *)
Definition exn_str (e : exn) : string :=
  match e with
  | ValueError m => m
  | UnboundLocalError v =>
      "cannot access local variable '" +:+ v
      +:+ "' where it is not associated with a value"
  | RuntimeError m => m
  | BackendError m => m
  end.

Inductive outcome (A : Type) : Type :=
| Ok (a : A)
| Raise (e : exn).
Arguments Ok {A} a.
Arguments Raise {A} e.

#[global] Instance result_ret : MRet outcome := fun A a => Ok a.

#[global] Instance result_bind : MBind outcome := fun A B k r =>
  match r with
  | Ok a => k a
  | Raise e => Raise e
  end.

(** ** Python string primitives *)

Module Py.

(** [sub in s] *)
Fixpoint contains (sub s : string) : bool :=
  String.prefix sub s ||
  match s with
  | EmptyString => false
  | String _ s' => contains sub s'
  end.

(** The scan of [s.split(sep, maxsplit)] for a non-empty [sep]: [skip]
    counts the characters of a separator still to be dropped, [cur] is the
    piece being collected, [budget] the splits still allowed ([None] for
    no limit). *)
Fixpoint split_go (sep : string) (budget : option nat) (skip : nat)
    (cur s : string) : list string :=
  match s with
  | EmptyString => [cur]
  | String c s' =>
      match skip with
      | S k => split_go sep budget k cur s'
      | O =>
          match budget with
          | Some O => [cur +:+ s]
          | _ =>
              if String.prefix sep s
              then cur :: split_go sep (Nat.pred <$> budget)
                            (String.length sep - 1) "" s'
              else split_go sep budget 0 (cur +:+ String c "") s'
          end
      end
  end.

(** [s.split(sep)] *)
Definition split (sep s : string) : list string :=
  split_go sep None 0 "" s.

(** [s.split(sep, maxsplit=n)] *)
Definition split_max (sep : string) (n : nat) (s : string) : list string :=
  split_go sep (Some n) 0 "" s.

(** [s.count(sep)]: the occurrences found by the same left-to-right scan. *)
Fixpoint count_go (sep : string) (skip : nat) (s : string) : nat :=
  match s with
  | EmptyString => 0
  | String c s' =>
      match skip with
      | S k => count_go sep k s'
      | O =>
          if String.prefix sep s
          then S (count_go sep (String.length sep - 1) s')
          else count_go sep 0 s'
      end
  end.

Definition count (sep s : string) : nat := count_go sep 0 s.

(** [s.replace(old, new)] for a non-empty [old]. *)
Fixpoint replace_go (old new : string) (skip : nat) (s : string) : string :=
  match s with
  | EmptyString => EmptyString
  | String c s' =>
      match skip with
      | S k => replace_go old new k s'
      | O =>
          if String.prefix old s
          then new +:+ replace_go old new (String.length old - 1) s'
          else String c (replace_go old new 0 s')
      end
  end.

Definition replace (old new s : string) : string := replace_go old new 0 s.

(** White space of [str.strip()] in the ASCII range. *)
Definition isspace (c : ascii) : bool :=
  let n := nat_of_ascii c in
  ((9 <=? n)%nat && (n <=? 13)%nat) || ((28 <=? n)%nat && (n <=? 32)%nat).

Fixpoint lstrip (s : string) : string :=
  match s with
  | EmptyString => EmptyString
  | String c s' => if isspace c then lstrip s' else s
  end.

Fixpoint rstrip (s : string) : string :=
  match s with
  | EmptyString => EmptyString
  | String c s' =>
      match rstrip s' with
      | EmptyString => if isspace c then EmptyString else String c EmptyString
      | r => String c r
      end
  end.

(** [s.strip()] *)
Definition strip (s : string) : string := rstrip (lstrip s).

Definition lower_ascii (c : ascii) : ascii :=
  let n := nat_of_ascii c in
  if (65 <=? n)%nat && (n <=? 90)%nat then ascii_of_nat (n + 32) else c.

(** [s.lower()] *)
Fixpoint lower (s : string) : string :=
  match s with
  | EmptyString => EmptyString
  | String c s' => String (lower_ascii c) (lower s')
  end.

(** [sep.join(parts)] *)
Fixpoint join (sep : string) (parts : list string) : string :=
  match parts with
  | [] => ""
  | [p] => p
  | p :: ps => p +:+ sep +:+ join sep ps
  end.

(** [x in l] for a list of strings *)
Definition mem (x : string) (l : list string) : bool :=
  existsb (String.eqb x) l.

(** [str(n)] for a non-negative integer *)
Definition str_of_nat (n : nat) : string :=
  NilZero.string_of_uint (Nat.to_uint n).

End Py.

(** ** utils.py: the two normalizers *)

(** Unpacking [x, y = parts]. *)
Definition unpack2 (parts : list string) : outcome (string * string) :=
  match parts with
  | [x; y] => Ok (x, y)
  | [] | [_] =>
      Raise (ValueError ("not enough values to unpack (expected 2, got "
                         +:+ Py.str_of_nat (length parts) +:+ ")"))
  | _ => Raise (ValueError "too many values to unpack (expected 2)")
  end.

Definition feat_strings : list string := [" feat."; " ft."; "(feat."; "(ft."].

(** The comprehension
    [[artist.replace(")", "").strip() for artist in
      featured_artists.split(", " if ", " in featured_artists else "& ")]]. *)
Definition parse_featured (featured_artists : string) : list string :=
  map (fun artist => Py.strip (Py.replace ")" "" artist))
      (Py.split (if Py.contains ", " featured_artists then ", " else "& ")
                featured_artists).

(** The marker loop of [process_spotify_song_name]. The local [title] is
    unbound ([None]) until a marker assigns it. *)
Fixpoint spotify_loop (markers : list string) (song_title : string)
    (title : option string) (artists : list string)
  : outcome (option string * list string) :=
  match markers with
  | [] => Ok (title, artists)
  | feat_string :: rest =>
      if Py.contains feat_string song_title then
        '(t, featured_artists) ← unpack2 (Py.split feat_string song_title);
        spotify_loop rest song_title (Some t)
                     (artists ++ parse_featured featured_artists)
      else spotify_loop rest song_title title artists
  end.

(** [for artist in artists: if artist not in song_artists:
      song_artists.append(artist)] *)
Definition append_new (song_artists artists : list string) : list string :=
  fold_left (fun acc artist => if Py.mem artist acc then acc else acc ++ [artist])
            artists song_artists.

Definition process_spotify_song_name (song_artists : list string)
    (song_title : string) : outcome (list string * string) :=
  '(title, artists) ← spotify_loop feat_strings song_title None [];
  let title := match artists with [] => Some song_title | _ => title end in
  let song_artists := append_new song_artists artists in
  match title with
  | Some t => Ok (song_artists, Py.strip t)
  | None => Raise (UnboundLocalError "title")
  end.

(** The marker loop of [process_yt_title]; here [title] starts as the
    Python value [None]. *)
Fixpoint yt_loop (markers : list string) (left_side right_side : string)
    (left_artists right_artists : list string) (title : option string)
  : outcome (list string * list string * option string) :=
  match markers with
  | [] => Ok (left_artists, right_artists, title)
  | feat_string :: rest =>
      left_artists ←
        (if Py.contains feat_string left_side then
           '(main_artist, featured_artists) ←
             unpack2 (Py.split feat_string left_side);
           Ok (left_artists
                 ++ ([Py.strip main_artist] ++ parse_featured featured_artists))
         else Ok left_artists);
      '(title, right_artists) ←
        (if Py.contains feat_string right_side then
           '(t, featured_artists) ← unpack2 (Py.split feat_string right_side);
           Ok (Some t, right_artists ++ parse_featured featured_artists)
         else Ok (title, right_artists));
      yt_loop rest left_side right_side left_artists right_artists title
  end.

(** [not title] for [title] a string or [None]. *)
Definition falsy (title : option string) : bool :=
  match title with
  | None | Some EmptyString => true
  | Some _ => false
  end.

Definition process_yt_title (yt_title : string) : outcome (list string * string) :=
  '(left_side, right_side) ← unpack2 (Py.split_max " - " 1 yt_title);
  '(left_artists, right_artists, title) ←
    yt_loop feat_strings left_side right_side [] [] None;
  let left_artists :=
    match left_artists with [] => [Py.strip left_side] | _ => left_artists end in
  let title := if falsy title then Py.strip right_side else default "" title in
  Ok (left_artists ++ right_artists, title).

(** ** difflib.SequenceMatcher *)

Module difflib.

(** [seq[i]], for an index in range. *)
Definition getitem (s : list ascii) (i : nat) : ascii := nth i s "000"%char.

(** The namedtuple [Match(a, b, size)]. *)
Definition Match : Type := nat * nat * nat.
Definition size (m : Match) : nat := m.2.

(** The first loop of [__chain_b]: [b2j.setdefault(elt, []).append(i)]. *)
Fixpoint chain_loop (i : nat) (b : list ascii) (b2j : gmap ascii (list nat))
  : gmap ascii (list nat) :=
  match b with
  | [] => b2j
  | elt :: b' =>
      chain_loop (S i) b' (<[elt := default [] (b2j !! elt) ++ [i]]> b2j)
  end.

Record SequenceMatcher : Type := {
  a : list ascii;
  b : list ascii;
  b2j : gmap ascii (list nat);
  bjunk : gset ascii;
  bpopular : gset ascii
}.

Definition is_popular (ntest : nat) (p : ascii * list nat) : Prop :=
  ntest < length p.2.

#[global] Instance is_popular_dec ntest p : Decision (is_popular ntest p).
Proof. unfold is_popular. apply _. Defined.

(** [SequenceMatcher(None, a, b)]: no junk test, [autojunk] on. *)
Definition new (a b : list ascii) : SequenceMatcher :=
  let b2j := chain_loop 0 b ∅ in
  let junk : gset ascii := ∅ in
  let n := length b in
  if 200 <=? n then
    let ntest := n / 100 + 1 in
    {| a := a; b := b;
       b2j := filter (fun p => ¬ is_popular ntest p) b2j;
       bjunk := junk;
       bpopular := dom (filter (is_popular ntest) b2j) |}
  else
    {| a := a; b := b; b2j := b2j; bjunk := junk; bpopular := ∅ |}.

Section find_longest_match.
Variable sm : SequenceMatcher.
Variables alo ahi blo bhi : nat.

Definition isbjunk (c : ascii) : bool := bool_decide (c ∈ bjunk sm).

(** [j2len.get(j-1, 0)]; the key [-1] is never bound. *)
Definition j2lenget (j2len : gmap nat nat) (j : nat) : nat :=
  match j with
  | O => 0
  | S j' => default 0 (j2len !! j')
  end.

(** [for j in b2j.get(a[i], nothing)], with its [continue] and [break].
    The code's [i-k+1] is written [i+1-k]: [k] can be [i+1]. *)
Fixpoint inner_loop (i : nat) (j2len : gmap nat nat) (js : list nat)
    (best : Match) (newj2len : gmap nat nat) : Match * gmap nat nat :=
  match js with
  | [] => (best, newj2len)
  | j :: js' =>
      if j <? blo then inner_loop i j2len js' best newj2len
      else if bhi <=? j then (best, newj2len)
      else
        let k := j2lenget j2len j + 1 in
        let newj2len := <[j := k]> newj2len in
        let best := if size best <? k then (i + 1 - k, j + 1 - k, k)
                    else best in
        inner_loop i j2len js' best newj2len
  end.

(** [for i in range(alo, ahi)] *)
Fixpoint outer_loop (rows : list nat) (best : Match) (j2len : gmap nat nat)
  : Match :=
  match rows with
  | [] => best
  | i :: rows' =>
      let js := default [] (b2j sm !! getitem (a sm) i) in
      let '(best, newj2len) := inner_loop i j2len js best ∅ in
      outer_loop rows' best newj2len
  end.

(** The two [while] loops that grow the block to the left; [junk]
    selects the test on [b[bestj-1]]: [not isbjunk] or [isbjunk]. *)
Fixpoint extend_left (junk : bool) (besti bestj bestsize : nat) : Match :=
  match besti, bestj with
  | S i', S j' =>
      if (alo <? besti) && (blo <? bestj)
         && Bool.eqb (isbjunk (getitem (b sm) j')) junk
         && bool_decide (getitem (a sm) i' = getitem (b sm) j')
      then extend_left junk i' j' (bestsize + 1)
      else (besti, bestj, bestsize)
  | _, _ => (besti, bestj, bestsize)
  end.

(** The two [while] loops that grow the block to the right; at most
    [ahi - (besti + bestsize)] rounds can pass the first test. *)
Fixpoint extend_right (rounds : nat) (junk : bool)
    (besti bestj bestsize : nat) : Match :=
  match rounds with
  | O => (besti, bestj, bestsize)
  | S rounds' =>
      if (besti + bestsize <? ahi) && (bestj + bestsize <? bhi)
         && Bool.eqb (isbjunk (getitem (b sm) (bestj + bestsize))) junk
         && bool_decide (getitem (a sm) (besti + bestsize)
                         = getitem (b sm) (bestj + bestsize))
      then extend_right rounds' junk besti bestj (bestsize + 1)
      else (besti, bestj, bestsize)
  end.

Definition find_longest_match : Match :=
  let '(besti, bestj, bestsize) :=
    outer_loop (seq alo (ahi - alo)) (alo, blo, 0) ∅ in
  let '(besti, bestj, bestsize) :=
    extend_left false besti bestj bestsize in
  let '(besti, bestj, bestsize) :=
    extend_right (ahi - (besti + bestsize)) false besti bestj bestsize in
  let '(besti, bestj, bestsize) :=
    extend_left true besti bestj bestsize in
  extend_right (ahi - (besti + bestsize)) true besti bestj bestsize.
End find_longest_match.

(** The work list of [get_matching_blocks]. [queue] is the Python list
    with its last entry first, so that [queue.pop()] takes the head and
    [queue.append] conses. [None] when [fuel] rounds were not enough. *)
Fixpoint blocks_loop (sm : SequenceMatcher) (fuel : nat)
    (queue : list (nat * nat * nat * nat)) (matching_blocks : list Match)
  : option (list Match) :=
  match queue with
  | [] => Some matching_blocks
  | (alo, ahi, blo, bhi) :: queue =>
      match fuel with
      | O => None
      | S fuel' =>
          let '(i, j, k) := find_longest_match sm alo ahi blo bhi in
          if 0 <? k then
            let queue :=
              if (alo <? i) && (blo <? j) then (alo, i, blo, j) :: queue
              else queue in
            let queue :=
              if (i + k <? ahi) && (j + k <? bhi)
              then (i + k, ahi, j + k, bhi) :: queue
              else queue in
            blocks_loop sm fuel' queue (matching_blocks ++ [(i, j, k)])
          else blocks_loop sm fuel' queue matching_blocks
      end
  end.

(** Tuple order, for [matching_blocks.sort()]. *)
Definition Match_leb (x y : Match) : bool :=
  let '(i1, j1, k1) := x in
  let '(i2, j2, k2) := y in
  (i1 <? i2) || ((i1 =? i2) && ((j1 <? j2) || ((j1 =? j2) && (k1 <=? k2)))).

Fixpoint insert_sorted (x : Match) (l : list Match) : list Match :=
  match l with
  | [] => [x]
  | y :: l' => if Match_leb x y then x :: l else y :: insert_sorted x l'
  end.

Definition sort (l : list Match) : list Match :=
  fold_right insert_sorted [] l.

(** Collapsing adjacent blocks. *)
Fixpoint collapse (blocks : list Match) (i1 j1 k1 : nat)
    (non_adjacent : list Match) : list Match :=
  match blocks with
  | [] => if 0 <? k1 then non_adjacent ++ [(i1, j1, k1)] else non_adjacent
  | (i2, j2, k2) :: blocks' =>
      if (i1 + k1 =? i2) && (j1 + k1 =? j2)
      then collapse blocks' i1 j1 (k1 + k2) non_adjacent
      else collapse blocks' i2 j2 k2
             (if 0 <? k1 then non_adjacent ++ [(i1, j1, k1)]
              else non_adjacent)
  end.

(** A block search uses up a character of [a] or leaves no entry behind,
    so [2 * len(a) + 1] rounds empty the queue
    (see [blocks_loop_terminates]). *)
Definition get_matching_blocks (sm : SequenceMatcher) : list Match :=
  let la := length (a sm) in
  let lb := length (b sm) in
  match blocks_loop sm (2 * la + 1) [(0, la, 0, lb)] [] with
  | Some matching_blocks =>
      collapse (sort matching_blocks) 0 0 0 [] ++ [(la, lb, 0)]
  | None => []
  end.

Definition calculate_ratio (matches length : nat) : Q :=
  if 0 <? length
  then Qred (2 * inject_Z (Z.of_nat matches) / inject_Z (Z.of_nat length))
  else 1.

Definition ratio (sm : SequenceMatcher) : Q :=
  let matches := list_sum (map size (get_matching_blocks sm)) in
  calculate_ratio matches (length (a sm) + length (b sm)).

End difflib.

(** ** utils.similarity_ratio *)

Definition similarity_ratio (s1 s2 : string) : Q :=
  difflib.ratio (difflib.new (list_ascii_of_string (Py.lower s1))
                             (list_ascii_of_string (Py.lower s2))).

(** ** mp3ify.py *)

(** One liked-song entry, [item['track']]: the artist names, the name and
    the duration in milliseconds. *)
Record spotify_track : Type := {
  track_artists : list string;
  track_name : string;
  track_duration_ms : Z
}.

(** The dictionary built by [get_info_single_track]; its ['duration_ms']
    holds seconds. *)
Record track_info : Type := {
  artists : list string;
  song_name : string;
  duration_ms : Q;
  search_query : string;
  full_title : string
}.

(** One entry of the search response. [artist] is what
    [result.get('artist', None)] gives: [None], or the sequence of strings
    that [", ".join] runs over. *)
Record yt_result : Type := {
  duration : Q;
  title : string;
  artist : option (list string);
  webpage_url : string
}.

Definition get_info_single_track (item : spotify_track) : outcome track_info :=
  '(artists, song_name) ←
    process_spotify_song_name (track_artists item) (track_name item);
  let duration_ms := track_duration_ms item in
  let search_query :=
    Py.join " " artists +:+ " - " +:+ song_name +:+ " autogenerated" in
  let full_title := Py.join ", " artists +:+ " - " +:+ song_name in
  Ok {| artists := artists;
        song_name := song_name;
        duration_ms := inject_Z duration_ms / 1000;
        search_query := search_query;
        full_title := full_title |}.

Fixpoint get_info_tracks (items : list spotify_track) : outcome (list track_info) :=
  match items with
  | [] => Ok []
  | track :: rest =>
      info ← get_info_single_track track;
      tracks ← get_info_tracks rest;
      Ok (info :: tracks)
  end.

(** [x > y] on numbers *)
Definition Qgtb (x y : Q) : bool := negb (Qle_bool x y).

(** The tuple [(url, title_similarity, artist_similarity)]. *)
Definition match_t : Type := option string * Q * Q.

Definition search_single_track (entry : yt_result) (track_info : track_info)
    (duration_tolerance title_similarity_threshold
       artist_similarity_threshold : Q) : outcome match_t :=
  let duration_diff := Qabs (duration entry - duration_ms track_info) in
  if Qgtb duration_diff duration_tolerance then Ok (None, 0%Q, 0%Q)
  else
    '(artist, title) ←
      match artist entry with
      | None => process_yt_title (title entry)
      | Some artist => Ok (artist, title entry)
      end;
    let title_similarity := similarity_ratio title (song_name track_info) in
    let artist_similarity :=
      similarity_ratio (Py.join ", " artist)
                       (Py.join ", " (artists track_info)) in
    if Qgtb title_similarity_threshold title_similarity
       || Qgtb artist_similarity_threshold artist_similarity
    then Ok (None, title_similarity, artist_similarity)
    else Ok (Some (webpage_url entry), title_similarity, artist_similarity).

(** [if match[0]]: a url that is neither [None] nor empty. *)
Definition truthy (url : option string) : bool :=
  match url with
  | Some (String _ _) => true
  | _ => false
  end.

(** [as_completed(futures)] hands every future over once: first the ones
    that are already finished when it is called, in the iteration order of
    a set, then the others as they finish. The order is the runtime's
    choice, not the program's; [completion] lists the positions of the
    futures in the order in which they are handed over. *)
Fixpoint as_completed {A} (completion : list nat) (futures : list A) : list A :=
  match completion with
  | [] => []
  | i :: rest =>
      match futures !! i with
      | Some future => future :: as_completed rest futures
      | None => as_completed rest futures
      end
  end.

(** [for future in ...: match = future.result(); if match[0]:
      matches.append(match)]; [future.result()] raises what the evaluation
    raised. *)
Fixpoint collect_matches (completed : list (outcome match_t))
    (matches : list match_t) : outcome (list match_t) :=
  match completed with
  | [] => Ok matches
  | future :: rest =>
      m ← future;
      collect_matches rest (if truthy m.1.1 then matches ++ [m] else matches)
  end.

(** Python floats: IEEE-754 binary64, rounding to nearest, ties to even. *)
Module Float.

Definition prec : Z := 53.
Definition emax : Z := 1024.

Definition of_Z (n : Z) : spec_float := binary_normalize prec emax n 0 false.

(** The float that holds a ratio: [2.0 * matches / length] is one rounded
    division of two integers, and so is the quotient of the same fraction
    in lowest terms; [1.0] and [0.0] are exact. *)
Definition of_Q (q : Q) : spec_float :=
  SFdiv prec emax (of_Z (Qnum q)) (of_Z (Zpos (Qden q))).

(** [x + y] *)
Definition add (x y : spec_float) : spec_float := SFadd prec emax x y.

(** The number that a finite float stands for. *)
Definition to_Q (f : spec_float) : Q :=
  match f with
  | S754_finite s m e =>
      let n := if s then Zneg m else Zpos m in
      match e with
      | Zneg p => Qmake n (Pos.iter xO xH p)
      | _ => inject_Z (n * 2 ^ e)
      end
  | _ => 0%Q
  end.

End Float.

(** The key [x[1] + x[2]]: the float sum of the two similarities, given
    as the number it stands for. Floats compare as these numbers do. *)
Definition score (x : match_t) : Q :=
  Float.to_Q (Float.add (Float.of_Q x.1.2) (Float.of_Q x.2)).

(** [max(matches, key=lambda x: x[1] + x[2])]: a later entry replaces the
    best one only when its key is greater. *)
Fixpoint max_by_score (best : match_t) (rest : list match_t) : match_t :=
  match rest with
  | [] => best
  | x :: rest' => max_by_score (if Qgtb (score x) (score best) then x else best) rest'
  end.

(** [os.path.join(a, b)] on POSIX *)
Definition path_join (a b : string) : string :=
  if String.prefix "/" b then b
  else if (a =? "")%string || String.prefix "/" (String.rev a) then a +:+ b
  else a +:+ "/" +:+ b.

Section backend.
(** [ydl.extract_info(query, download=False)['entries']], or the
    exception it raises. *)
Variable extract_info : string -> outcome (list yt_result).
(** [ydl.download([url])] under the options holding [outtmpl]. *)
Variable download : string -> string -> outcome unit.
(** [utils.format_download_dir()] *)
Variable format_download_dir : string.

Definition search_youtube_single_track (completion : list nat)
    (track_info : track_info) (max_results : nat)
    (duration_tolerance title_similarity_threshold
       artist_similarity_threshold : Q) : outcome (option string * string) :=
  match extract_info ("ytsearch" +:+ Py.str_of_nat max_results +:+ ":"
                      +:+ search_query track_info) with
  | Raise e => Raise (RuntimeError ("Error searching YouTube: " +:+ exn_str e))
  | Ok entries =>
      let futures :=
        map (fun entry =>
               search_single_track entry track_info duration_tolerance
                 title_similarity_threshold artist_similarity_threshold)
            entries in
      matches ← collect_matches (as_completed completion futures) [];
      let full_title := full_title track_info in
      match matches with
      | [] => Ok (None, full_title)
      | m :: ms =>
          let '(yt_url, _, _) := max_by_score m ms in
          Ok (yt_url, full_title)
      end
  end.

(** What [search_youtube_single_track] writes to standard output: the line
    of [print(f"Found: {full_title} at {yt_url}")], reached when [matches]
    is not empty. The backend is opened with ['quiet': True] and prints
    nothing of its own. *)
Definition search_youtube_single_track_stdout (completion : list nat)
    (track_info : track_info) (max_results : nat)
    (duration_tolerance title_similarity_threshold
       artist_similarity_threshold : Q) : list string :=
  match extract_info ("ytsearch" +:+ Py.str_of_nat max_results +:+ ":"
                      +:+ search_query track_info) with
  | Raise e => []
  | Ok entries =>
      let futures :=
        map (fun entry =>
               search_single_track entry track_info duration_tolerance
                 title_similarity_threshold artist_similarity_threshold)
            entries in
      match collect_matches (as_completed completion futures) [] with
      | Ok (m :: ms) =>
          let '(yt_url, _, _) := max_by_score m ms in
          ["Found: " +:+ full_title track_info +:+ " at "
           +:+ match yt_url with Some url => url | None => "None" end]
      | _ => []
      end
  end.

(** [search_youtube_single_track(track)] with the default arguments. *)
Definition search_youtube_default (completion : list nat)
    (track : track_info) : outcome (option string * string) :=
  search_youtube_single_track completion track 5 10%Q (7 # 10)%Q (5 # 100)%Q.

(** [download_track(track, failed_tracks)]: the outcome of the call and
    the shared list afterwards. *)
Definition download_track (completion : list nat) (track : track_info)
    (failed_tracks : list string) : outcome unit * list string :=
  match search_youtube_default completion track with
  | Raise e => (Raise e, failed_tracks)
  | Ok (None, title) => (Ok tt, failed_tracks ++ [title])
  | Ok (Some url, title) =>
      let outtmpl := path_join format_download_dir (Py.replace ":" "" title) in
      match download outtmpl url with
      | Ok _ => (Ok tt, failed_tracks)
      | Raise e => (Ok tt, failed_tracks ++ [title])
      end
  end.

(** What the call [download_track(track, failed_tracks)] writes to
    standard output: the line of the search, then the line of
    [print(f"Error downloading {title}: {e}")] when the download raises. *)
Definition download_track_stdout (completion : list nat)
    (track : track_info) : list string :=
  search_youtube_single_track_stdout completion track 5 10%Q (7 # 10)%Q
    (5 # 100)%Q
  ++ match search_youtube_default completion track with
     | Ok (Some url, title) =>
         let outtmpl :=
           path_join format_download_dir (Py.replace ":" "" title) in
         match download outtmpl url with
         | Ok _ => []
         | Raise e => ["Error downloading " +:+ title +:+ ": " +:+ exn_str e]
         end
     | _ => []
     end.

(** One task batch of [pool.starmap]: a worker maps [download_track]
    over the batch, and the first exception ends the batch. [stdout]
    collects the lines that the calls print. *)
Fixpoint run_batch (batch : list (list nat * track_info))
    (failed_tracks stdout : list string)
  : outcome unit * list string * list string :=
  match batch with
  | [] => (Ok tt, failed_tracks, stdout)
  | (completion, track) :: rest =>
      let stdout := stdout ++ download_track_stdout completion track in
      match download_track completion track failed_tracks with
      | (Ok _, failed_tracks) => run_batch rest failed_tracks stdout
      | (Raise e, failed_tracks) => (Raise e, failed_tracks, stdout)
      end
  end.

(** [Pool._get_tasks]: slices of [size] items. *)
Fixpoint get_tasks {A} (size room : nat) (cur : list A) (it : list A)
  : list (list A) :=
  match it with
  | [] => match cur with [] => [] | _ => [cur] end
  | x :: it' =>
      match room with
      | O | 1 => (cur ++ [x]) :: get_tasks size size [] it'
      | S room' => get_tasks size room' (cur ++ [x]) it'
      end
  end.

(** [pool.starmap]: every batch runs (here one after the other, which is
    one of the possible interleavings); the call raises the exception of
    a batch that failed, once all batches are done. *)
Fixpoint run_batches (batches : list (list (list nat * track_info)))
    (failed_tracks stdout : list string) (error : option exn)
  : option exn * list string * list string :=
  match batches with
  | [] => (error, failed_tracks, stdout)
  | batch :: rest =>
      match run_batch batch failed_tracks stdout with
      | (Ok _, failed_tracks, stdout) =>
          run_batches rest failed_tracks stdout error
      | (Raise e, failed_tracks, stdout) =>
          run_batches rest failed_tracks stdout
                      (match error with None => Some e | _ => error end)
      end
  end.

Definition starmap (processes : nat) (tasks : list (list nat * track_info))
    (failed_tracks stdout : list string)
  : outcome unit * list string * list string :=
  let chunksize :=
    length tasks / (processes * 4)
    + (if length tasks mod (processes * 4) =? 0 then 0 else 1) in
  match run_batches (get_tasks chunksize chunksize [] tasks)
                    failed_tracks stdout None with
  | (None, failed_tracks, stdout) => (Ok tt, failed_tracks, stdout)
  | (Some e, failed_tracks, stdout) => (Raise e, failed_tracks, stdout)
  end.

(** The script body from [tracks = get_info_tracks(liked_songs)] on:
    the lines on standard output after the header, first those of the
    pool's workers and then the report, or the exception that ends the
    run. Standard output is taken line by line, as on a terminal.
    [completions] gives each track the order in which its candidate
    evaluations are handed over. *)
Definition main (processes : nat) (completions : list (list nat))
    (liked_songs : list spotify_track) : outcome (list string) :=
  tracks ← get_info_tracks liked_songs;
  match starmap processes (zip completions tracks) [] [] with
  | (Raise e, _, _) => Raise e
  | (Ok _, failed_tracks, stdout) =>
      Ok (stdout
          ++ match failed_tracks with
             | [] => []
             | _ => "The following tracks failed to download:"
                    :: map (fun track => ">>> " +:+ track) failed_tracks
             end)
  end.
End backend.

(** ** Vocabulary of the statements *)

(** The error of unpacking more than two pieces. *)
Definition too_many : exn := ValueError "too many values to unpack (expected 2)".

(** The two pieces of [s.split(sep)] when [sep] occurs once. *)
Definition left_of (sep s : string) : string := nth 0 (Py.split sep s) "".
Definition right_of (sep s : string) : string := nth 1 (Py.split sep s) "".

(** The markers found in [s], in the order of [feat_strings]. *)
Definition matching (s : string) : list string :=
  List.filter (fun m => Py.contains m s) feat_strings.

(** A block lies inside the windows [a[alo:ahi]] and [b[blo:bhi]]. *)
Definition in_range (alo ahi blo bhi : nat) (m : difflib.Match) : Prop :=
  alo ≤ m.1.1 ∧ m.1.1 + m.2 ≤ ahi ∧ blo ≤ m.1.2 ∧ m.1.2 + m.2 ≤ bhi.

(** Every run length recorded in [j2len] fits in [n] rows and in the
    columns from [blo] up to its key. *)
Definition j2len_ok (blo n : nat) (j2len : gmap nat nat) : Prop :=
  ∀ j v, j2len !! j = Some v → blo ≤ j ∧ v ≤ n ∧ v ≤ j + 1 - blo.

(** The total of the block sizes. *)
Definition total (blocks : list difflib.Match) : nat :=
  list_sum (map difflib.size blocks).

(** The windows of the work list are well formed; their widths in [a] and
    in [b]; the rounds they can still cost. *)
Definition window_ok (w : nat * nat * nat * nat) : Prop :=
  w.1.1.1 ≤ w.1.1.2 ∧ w.1.2 ≤ w.2.
Definition width_a (queue : list (nat * nat * nat * nat)) : nat :=
  list_sum (map (fun w => w.1.1.2 - w.1.1.1) queue).
Definition width_b (queue : list (nat * nat * nat * nat)) : nat :=
  list_sum (map (fun w => w.2 - w.1.2) queue).
Definition rounds (queue : list (nat * nat * nat * nat)) : nat :=
  list_sum (map (fun w => 2 * (w.1.1.2 - w.1.1.1) + 1) queue).

(** The positions of [c] in [l], counted from [i]: what [b2j] records. *)
Fixpoint indices_from (i : nat) (c : ascii) (l : list ascii) : list nat :=
  match l with
  | [] => []
  | e :: l' => (if decide (e = c) then [i] else []) ++ indices_from (S i) c l'
  end.

(** The length of the run of characters with an entry in [b2j] that ends at
    position [i] of [x], and the run that ends just before [i]. *)
Fixpoint run_length (b2j : gmap ascii (list nat)) (x : list ascii) (i : nat)
  : nat :=
  let before := match i with O => 0 | S i' => run_length b2j x i' end in
  if bool_decide (is_Some (b2j !! difflib.getitem x i)) then S before else 0.

Definition run_before (b2j : gmap ascii (list nat)) (x : list ascii) (i : nat)
  : nat :=
  match i with O => 0 | S i' => run_length b2j x i' end.

(** The artist sequence and the title that [search_single_track] compares
    with the track: the structured [artist] with the raw title, or what
    [process_yt_title] derives from the raw title. *)
Definition comparison_strings (entry : yt_result) : outcome (list string * string) :=
  match artist entry with
  | None => process_yt_title (title entry)
  | Some artist => Ok (artist, title entry)
  end.

(** [|candidate.duration - track.duration|] *)
Definition duration_diff (entry : yt_result) (track : track_info) : Q :=
  Qabs (duration entry - duration_ms track).

(** The track of the examples: artist A, title X, 100 seconds long. *)
Definition track_X : track_info :=
  {| artists := ["A"]; song_name := "X"; duration_ms := 100;
     search_query := "A - X autogenerated"; full_title := "A - X" |}.

(** A candidate inside the tolerance whose title is two thirds right. *)
Definition weak_title_entry : yt_result :=
  {| duration := 100; title := "Xy"; artist := Some ["A"]; webpage_url := "u3" |}.

(** A match that [search_youtube_single_track] keeps. *)
Definition accepted (m : match_t) : bool := truthy m.1.1.

(** The query string handed to the search backend. *)
Definition ytsearch (max_results : nat) (track : track_info) : string :=
  "ytsearch" +:+ Py.str_of_nat max_results +:+ ":" +:+ search_query track.

(** The error of unpacking the single piece of a title without [" - "]. *)
Definition not_enough : exn :=
  ValueError "not enough values to unpack (expected 2, got 1)".

(** Two candidates that match [track_X] equally well, one whose title has no
    separator, and backends for the examples. *)
Definition entry_u1 : yt_result :=
  {| duration := 100; title := "A - X"; artist := None; webpage_url := "u1" |}.
Definition entry_u2 : yt_result :=
  {| duration := 100; title := "A - X"; artist := None; webpage_url := "u2" |}.
Definition entry_malformed : yt_result :=
  {| duration := 100; title := "X"; artist := None; webpage_url := "u0" |}.
Definition entry_malformed_far : yt_result :=
  {| duration := 200; title := "X"; artist := None; webpage_url := "u0" |}.

Definition search_returns (entries : list yt_result) : string → outcome (list yt_result) :=
  fun _ => Ok entries.
Definition search_fails_for (query : string) : string → outcome (list yt_result) :=
  fun q => if (q =? query)%string then Raise (BackendError "network down")
           else Ok [].
Definition download_ok : string → string → outcome unit := fun _ _ => Ok tt.

Definition liked_X : spotify_track :=
  {| track_artists := ["A"]; track_name := "X"; track_duration_ms := 100000 |}.
Definition liked_Y : spotify_track :=
  {| track_artists := ["B"]; track_name := "Y"; track_duration_ms := 100000 |}.

(** The number of positions of [s] at which [sub] occurs. *)
Fixpoint occurrences (sub s : string) : nat :=
  (if String.prefix sub s then 1 else 0)
  + match s with
    | EmptyString => 0
    | String _ s' => occurrences sub s'
    end.

(** [h] is not a character of [t]. *)
Fixpoint avoids (h : ascii) (t : string) : bool :=
  match t with
  | EmptyString => true
  | String c t' => negb (Ascii.eqb c h) && avoids h t'
  end.

(** A separator whose first character does not come back in it: two of its
    occurrences cannot overlap. *)
Definition border_free (sep : string) : bool :=
  match sep with
  | EmptyString => false
  | String h t => avoids h t
  end.

(** None of the first [skip] positions of [s] starts an occurrence. *)
Fixpoint no_start (sep : string) (skip : nat) (s : string) : Prop :=
  match skip, s with
  | S k, String _ s' => String.prefix sep s = false ∧ no_start sep k s'
  | _, _ => True
  end.

(** [s] is empty or starts with a character that is not white space. *)
Definition head_not_space (s : string) : Prop :=
  match s with
  | EmptyString => True
  | String c _ => Py.isspace c = false
  end.

(** What [process_yt_title] returns for the two sides [l] and [r] of the
    title when each marker occurs at most once on each side: the artists
    and the title. *)
Definition yt_artists (l r : string) : list string :=
  match matching l with
  | [] => [Py.strip l]
  | ms =>
      concat (map (fun m => Py.strip (left_of m l) :: parse_featured (right_of m l))
                  ms)
  end
  ++ concat (map (fun m => parse_featured (right_of m r)) (matching r)).

Definition yt_title_of (r : string) : string :=
  match last (matching r) with
  | Some m =>
      match left_of m r with
      | EmptyString => Py.strip r
      | t => t
      end
  | None => Py.strip r
  end.

(** The first line of the failure report. *)
Definition report_header : string := "The following tracks failed to download:".

(** A featured name as the normalizers leave it: trimmed, and without a
    closing parenthesis. *)
Definition clean_name (x : string) : Prop :=
  Py.strip x = x ∧ avoids ")"%char x = true.

(** The lines that the pool's workers print. *)
Definition found_line (title url : string) : string :=
  "Found: " +:+ title +:+ " at " +:+ url.


(** A track and two candidates for it whose scores are (0.7, 0.2) and
    (0.8, 0.1). *)
Definition track_K : track_info :=
  {| artists := ["klmno"]; song_name := "abcdefghij"; duration_ms := 100;
     search_query := "klmno - abcdefghij autogenerated";
     full_title := "klmno - abcdefghij" |}.
Definition entry_k1 : yt_result :=
  {| duration := 100; title := "abcdefg123"; artist := Some ["kvwxy"];
     webpage_url := "u1" |}.
Definition entry_k2 : yt_result :=
  {| duration := 100; title := "abcdefgh12";
     artist := Some ["kvwxyvwxyvwxyvw"]; webpage_url := "u2" |}.

(** A search backend that knows one query, and a download that fails. *)
Definition search_returns_for (query : string) (entries : list yt_result)
  : string → outcome (list yt_result) :=
  fun q => if (q =? query)%string then Ok entries else Ok [].

(** * Properties *)

(** ** Strings *)

#[local] Arguments String.prefix : simpl never.

Example split_ex1 : Py.split ", " "B, C, D" = ["B"; "C"; "D"].
Proof. reflexivity. Qed.
Example split_ex2 : Py.split_max " - " 1 "A - B - C" = ["A"; "B - C"].
Proof. reflexivity. Qed.
Example split_ex3 : Py.split " feat." "Song" = ["Song"].
Proof. reflexivity. Qed.
Example strip_ex : Py.strip "  a b ) " = "a b )".
Proof. reflexivity. Qed.
Example replace_ex : Py.replace ")" "" " C) )" = " C ".
Proof. reflexivity. Qed.

Example yt_ex : process_yt_title "A feat. B - Song (ft. C)" = Ok (["A"; "B"; "C"], "Song ").
Proof. reflexivity. Qed.
Example sp_ex1 : process_spotify_song_name ["A"] "Song feat. B, C" = Ok (["A"; "B"; "C"], "Song").
Proof. reflexivity. Qed.
Example sp_ex2 : process_spotify_song_name ["A"] "Song feat. A (ft. B)" = Ok (["A"; "A (ft. B"; "B"], "Song feat. A").
Proof. reflexivity. Qed.

Example sim1 : similarity_ratio "tide" "diet" = (1#4)%Q.
Proof. vm_compute. reflexivity. Qed.
Example sim2 : similarity_ratio "diet" "tide" = (1#2)%Q.
Proof. vm_compute. reflexivity. Qed.
Example sim3 : similarity_ratio "Hello World" "hello world" = 1%Q.
Proof. vm_compute. reflexivity. Qed.
Example sim4 : similarity_ratio "" "" = 1%Q.
Proof. vm_compute. reflexivity. Qed.

Section string_facts.
Implicit Types sep s cur : string.

Lemma prefix_nonempty_nil sep : sep ≠ "" → String.prefix sep "" = false.
Proof. by destruct sep. Qed.

Lemma length_split_go sep skip cur s :
  length (Py.split_go sep None skip cur s) = S (Py.count_go sep skip s).
Proof.
  revert skip cur. induction s as [|c s IH]; intros skip cur; [done|].
  destruct skip as [|k]; simpl; [|apply IH].
  destruct (String.prefix sep (String c s)); simpl; [|apply IH].
  f_equal. apply IH.
Qed.

Lemma length_split sep s : length (Py.split sep s) = S (Py.count sep s).
Proof. apply length_split_go. Qed.

Lemma contains_count sep s :
  sep ≠ "" → Py.contains sep s = true ↔ 0 < Py.count sep s.
Proof.
  intros Hsep. unfold Py.count. induction s as [|c s IH]; simpl.
  - rewrite prefix_nonempty_nil by done. split; [done|lia].
  - destruct (String.prefix sep (String c s)); simpl; [split; [lia|done]|done].
Qed.

Lemma contains_false_count sep s :
  sep ≠ "" → Py.contains sep s = false → Py.count sep s = 0.
Proof.
  intros Hsep Hc. destruct (Py.count sep s) eqn:E; [done|].
  assert (Py.contains sep s = true) by (apply contains_count; [done|lia]).
  congruence.
Qed.
End string_facts.

Lemma unpack2_split_once sep s :
  Py.count sep s = 1 →
  unpack2 (Py.split sep s) = Ok (left_of sep s, right_of sep s).
Proof.
  intros Hc. pose proof (length_split sep s) as Hl. rewrite Hc in Hl.
  unfold left_of, right_of.
  destruct (Py.split sep s) as [|x [|y [|z l]]]; simplify_eq/=; done.
Qed.

Lemma unpack2_split_many sep s :
  2 ≤ Py.count sep s → unpack2 (Py.split sep s) = Raise too_many.
Proof.
  intros Hc. pose proof (length_split sep s) as Hl.
  destruct (Py.split sep s) as [|x [|y [|z l]]]; simpl in *; try lia; done.
Qed.

Lemma feat_strings_nonempty m : m ∈ feat_strings → m ≠ "".
Proof.
  unfold feat_strings. rewrite !elem_of_cons, elem_of_nil.
  intros [->|[->|[->|[->|[]]]]]; done.
Qed.

(** ** The marker loops *)

Lemma raise_bind {A B} (e : exn) (k : A → outcome B) : Raise e ≫= k = Raise e.
Proof. done. Qed.

Lemma ok_bind {A B} (x : A) (k : A → outcome B) : Ok x ≫= k = k x.
Proof. done. Qed.

Lemma marker_cases m s :
  m ≠ "" →
  (Py.contains m s = false ∧ Py.count m s = 0)
  ∨ (Py.contains m s = true ∧ Py.count m s = 1
     ∧ unpack2 (Py.split m s) = Ok (left_of m s, right_of m s))
  ∨ (Py.contains m s = true ∧ 2 ≤ Py.count m s
     ∧ unpack2 (Py.split m s) = Raise too_many).
Proof.
  intros Hm. destruct (Py.contains m s) eqn:Hc.
  - apply contains_count in Hc; [|done]. right.
    destruct (decide (Py.count m s = 1)) as [H1|H1].
    + left. eauto using unpack2_split_once.
    + right. split_and!; [done|lia|apply unpack2_split_many; lia].
  - left. eauto using contains_false_count.
Qed.

Lemma spotify_loop_many ms st t ar :
  (∀ m, m ∈ ms → m ≠ "") →
  (∃ m, m ∈ ms ∧ 2 ≤ Py.count m st) →
  spotify_loop ms st t ar = Raise too_many.
Proof.
  revert t ar. induction ms as [|m ms IH]; intros t ar Hne (m' & Hin & Hc).
  { by apply elem_of_nil in Hin. }
  assert (∀ m0, m0 ∈ ms → m0 ≠ "") as Hne' by (intros; apply Hne; by right).
  simpl.
  destruct (marker_cases m st) as [[-> H0]|[(-> & H1 & ->)|(-> & H2 & ->)]];
    [apply Hne; by left| | |done].
  - apply IH; [done|]. exists m'. split; [|done].
    apply elem_of_cons in Hin as [->|]; [lia|done].
  - rewrite ok_bind. apply IH; [done|]. exists m'. split; [|done].
    apply elem_of_cons in Hin as [->|]; [lia|done].
Qed.

Lemma spotify_loop_once ms st t ar :
  (∀ m, m ∈ ms → m ≠ "") →
  (∀ m, m ∈ ms → Py.count m st ≤ 1) →
  spotify_loop ms st t ar =
    Ok (match last (List.filter (fun m => Py.contains m st) ms) with
        | Some m => Some (left_of m st)
        | None => t
        end,
        ar ++ concat (map (fun m => parse_featured (right_of m st))
                          (List.filter (fun m => Py.contains m st) ms))).
Proof.
  revert t ar. induction ms as [|m ms IH]; intros t ar Hne Hc; simpl.
  { by rewrite app_nil_r. }
  assert (∀ m0, m0 ∈ ms → m0 ≠ "") as Hne' by (intros; apply Hne; by right).
  assert (∀ m0, m0 ∈ ms → Py.count m0 st ≤ 1) as Hc' by (intros; apply Hc; by right).
  destruct (marker_cases m st) as [[-> H0]|[(-> & H1 & ->)|(-> & H2 & ->)]];
    [apply Hne; by left| | |].
  - by apply IH.
  - rewrite ok_bind, IH by done. simpl. rewrite last_cons, <- app_assoc.
    by destruct (last _).
  - specialize (Hc m ltac:(by left)). lia.
Qed.

Lemma yt_loop_many ms l r la ra t :
  (∀ m, m ∈ ms → m ≠ "") →
  (∃ m, m ∈ ms ∧ (2 ≤ Py.count m l ∨ 2 ≤ Py.count m r)) →
  yt_loop ms l r la ra t = Raise too_many.
Proof.
  revert la ra t. induction ms as [|m ms IH]; intros la ra t Hne (m' & Hin & Hc).
  { by apply elem_of_nil in Hin. }
  assert (∀ m0, m0 ∈ ms → m0 ≠ "") as Hne' by (intros; apply Hne; by right).
  assert (m ≠ "") as Hm by (apply Hne; by left).
  simpl.
  destruct (marker_cases m l) as [[-> L]|[(-> & L & ->)|(-> & L & ->)]];
    [done| | |done];
    (destruct (marker_cases m r) as [[-> R]|[(-> & R & ->)|(-> & R & ->)]];
     [done| | |done]);
    rewrite ?ok_bind; simpl; apply IH; try done; exists m'; (split; [|done]);
    apply elem_of_cons in Hin as [->|]; done || lia.
Qed.

#[local] Arguments yt_loop : simpl never.
#[local] Arguments spotify_loop : simpl never.

Lemma feat_strings_In_nonempty m : In m feat_strings → m ≠ "".
Proof. intros H. by apply feat_strings_nonempty, list_elem_of_In. Qed.

Lemma parse_featured_nonempty s : parse_featured s ≠ [].
Proof.
  unfold parse_featured. intros H. apply (f_equal length) in H.
  rewrite length_map, length_split in H. done.
Qed.

(** ** Occurrences of a marker *)

Lemma prefix_cons a s1 b s2 :
  String.prefix (String a s1) (String b s2)
  = if ascii_dec a b then String.prefix s1 s2 else false.
Proof. done. Qed.

Lemma count_go_occurrences sep skip s :
  sep ≠ "" →
  (∀ c s', String.prefix sep (String c s') = true →
           no_start sep (String.length sep - 1) s') →
  no_start sep skip s → Py.count_go sep skip s = occurrences sep s.
Proof.
  intros Hsep Hfree. revert skip.
  induction s as [|c s IH]; intros skip Hskip.
  { simpl. by rewrite prefix_nonempty_nil. }
  destruct skip as [|k]; simpl.
  - destruct (String.prefix sep (String c s)) eqn:E.
    + rewrite IH; [done|]. by eapply Hfree.
    + by apply IH.
  - simpl in Hskip. destruct Hskip as [-> Hskip]. by apply IH.
Qed.

Lemma avoids_no_start h t0 t s :
  avoids h t = true → String.prefix t s = true →
  no_start (String h t0) (String.length t) s.
Proof.
  revert s. induction t as [|a t IH]; intros s Ha Hp; [by destruct s|].
  destruct s as [|b s]; [done|].
  simpl in Ha. apply andb_true_iff in Ha as [Hah Ha].
  rewrite prefix_cons in Hp. destruct (ascii_dec a b) as [<-|]; [|done].
  simpl. split; [|by apply IH].
  rewrite prefix_cons. destruct (ascii_dec h a) as [<-|]; [|done].
  by rewrite Ascii.eqb_refl in Hah.
Qed.

Lemma count_occurrences sep s :
  border_free sep = true → Py.count sep s = occurrences sep s.
Proof.
  intros Hb. destruct sep as [|h t]; [done|].
  apply count_go_occurrences; [done| |done].
  intros c s' Hp. rewrite prefix_cons in Hp.
  destruct (ascii_dec h c); [|done].
  simpl. rewrite Nat.sub_0_r. by apply avoids_no_start.
Qed.

Lemma feat_strings_border_free m : m ∈ feat_strings → border_free m = true.
Proof.
  unfold feat_strings. rewrite !elem_of_cons, elem_of_nil.
  intros [->|[->|[->|[->|[]]]]]; done.
Qed.

Lemma marker_count m s :
  m ∈ feat_strings → Py.count m s = occurrences m s.
Proof. intros H. by apply count_occurrences, feat_strings_border_free. Qed.

(** ** Repeated markers (C10) *)

Lemma repeated_marker_raises_count (m : string) (Hm : In m feat_strings) :
  (∀ song_artists song_title,
      2 ≤ Py.count m song_title →
      process_spotify_song_name song_artists song_title = Raise too_many)
  ∧ (∀ yt_title left_side right_side,
      Py.split_max " - " 1 yt_title = [left_side; right_side] →
      2 ≤ Py.count m left_side ∨ 2 ≤ Py.count m right_side →
      process_yt_title yt_title = Raise too_many)
  ∧ (∀ song_artists song_title r,
      process_spotify_song_name song_artists song_title = Ok r →
      Py.contains m song_title = true → Py.count m song_title = 1)
  ∧ (∀ yt_title r,
      process_yt_title yt_title = Ok r →
      ∃ left_side right_side,
        Py.split_max " - " 1 yt_title = [left_side; right_side]
        ∧ (Py.contains m left_side = true → Py.count m left_side = 1)
        ∧ (Py.contains m right_side = true → Py.count m right_side = 1)).
Proof.
  assert (∀ m0, m0 ∈ feat_strings → m0 ≠ "") as Hne
      by apply feat_strings_nonempty.
  assert (m ∈ feat_strings) as Hm' by by apply list_elem_of_In.
  assert (∀ song_artists song_title,
      2 ≤ Py.count m song_title →
      process_spotify_song_name song_artists song_title = Raise too_many) as H1.
  { intros sa st Hc. unfold process_spotify_song_name.
    rewrite spotify_loop_many; [done|done|eauto]. }
  assert (∀ yt_title left_side right_side,
      Py.split_max " - " 1 yt_title = [left_side; right_side] →
      2 ≤ Py.count m left_side ∨ 2 ≤ Py.count m right_side →
      process_yt_title yt_title = Raise too_many) as H2.
  { intros yt l r Hs Hc. unfold process_yt_title. rewrite Hs. simpl.
    rewrite yt_loop_many; [done|done|eauto]. }
  split_and!; [done|done| |].
  - intros sa st r Hok Hin. apply contains_count in Hin; [|by apply Hne].
    destruct (decide (2 ≤ Py.count m st)) as [Hc|Hc]; [|lia].
    rewrite H1 in Hok by done. done.
  - intros yt r Hok. unfold process_yt_title in Hok.
    destruct (Py.split_max " - " 1 yt) as [|l [|rr [|z tl]]] eqn:Hs;
      try done.
    exists l, rr. split; [done|].
    assert (¬ (2 ≤ Py.count m l ∨ 2 ≤ Py.count m rr)) as Hc.
    { intros Hc. simpl in Hok. rewrite yt_loop_many in Hok; [done|done|eauto]. }
    split; intros Hin; (apply contains_count in Hin; [|by apply Hne]); lia.
Qed.

(** C10. Both normalizers are partial on repeated markers. When one of the
    four markers occurs at more than one position of the scanned string (the catalog
    title for [process_spotify_song_name]; the left or the right side of the
    first [" - "] for [process_yt_title]), unpacking the pieces of the split
    into two names fails and the call raises [ValueError]. Conversely a call
    that returns has found every marker it matched exactly once in the string
    it scanned. *)
Theorem repeated_marker_raises (m : string) (Hm : In m feat_strings) :
  (∀ song_artists song_title,
      2 ≤ occurrences m song_title →
      process_spotify_song_name song_artists song_title = Raise too_many)
  ∧ (∀ yt_title left_side right_side,
      Py.split_max " - " 1 yt_title = [left_side; right_side] →
      2 ≤ occurrences m left_side ∨ 2 ≤ occurrences m right_side →
      process_yt_title yt_title = Raise too_many)
  ∧ (∀ song_artists song_title r,
      process_spotify_song_name song_artists song_title = Ok r →
      Py.contains m song_title = true → occurrences m song_title = 1)
  ∧ (∀ yt_title r,
      process_yt_title yt_title = Ok r →
      ∃ left_side right_side,
        Py.split_max " - " 1 yt_title = [left_side; right_side]
        ∧ (Py.contains m left_side = true → occurrences m left_side = 1)
        ∧ (Py.contains m right_side = true → occurrences m right_side = 1)).
Proof.
  assert (∀ s, occurrences m s = Py.count m s) as Hocc
    by (intros s; symmetry; by apply marker_count, list_elem_of_In).
  destruct (repeated_marker_raises_count m Hm) as (H1 & H2 & H3 & H4).
  split_and!.
  - intros sa st. rewrite Hocc. apply H1.
  - intros yt l r. rewrite !Hocc. apply H2.
  - intros sa st r. rewrite Hocc. apply H3.
  - intros yt r Hok. destruct (H4 yt r Hok) as (l & rr & Hs & Hl & Hr).
    exists l, rr. by rewrite !Hocc.
Qed.

Lemma repeated_marker_raises_witness :
  In " ft." feat_strings
  ∧ process_spotify_song_name ["A"] "Song ft. B ft. C" = Raise too_many
  ∧ process_yt_title "A - Song ft. B ft. C" = Raise too_many
  ∧ occurrences " ft." "Song ft. B" = 1.
Proof.
  assert (In " ft." feat_strings) as Hm by (simpl; tauto).
  destruct (repeated_marker_raises " ft." Hm) as (H1 & H2 & H3 & H4).
  split; [exact Hm|]. split; [|split].
  - apply H1. vm_compute. lia.
  - apply (H2 _ "A" "Song ft. B ft. C"); [reflexivity|].
    right. vm_compute. lia.
  - apply (H3 ["A"] "Song ft. B" (["A"; "B"], "Song")); reflexivity.
Defined.

(** ** Marker priority in the catalog normalizer (C3) *)

(** C3, as the code has it. [process_spotify_song_name] tests the four
    markers in their fixed order and consumes every one that is present (no
    marker is skipped once another has matched). With each present marker
    occurring once, the retained title is the part left of the last marker
    that matched, trimmed, and the names of all the clauses, in marker order,
    are appended to the artists, skipping the names already there
    (case-sensitively). With a single marker present this is the part left
    of that marker and the names of its clause. *)
Theorem catalog_markers_all_consumed (song_artists : list string)
    (song_title : string)
    (Honce : ∀ m, In m feat_strings → occurrences m song_title ≤ 1) :
  process_spotify_song_name song_artists song_title =
    Ok (append_new song_artists
          (concat (map (fun m => parse_featured (right_of m song_title))
                       (matching song_title))),
        Py.strip (match last (matching song_title) with
                  | Some m => left_of m song_title
                  | None => song_title
                  end)).
Proof.
  unfold process_spotify_song_name.
  rewrite spotify_loop_once;
    [|apply feat_strings_nonempty
     |intros m Hm; rewrite marker_count by done;
      by apply Honce, list_elem_of_In].
  rewrite ok_bind. fold (matching song_title). simpl.
  destruct (matching song_title) as [|m ms]; [done|].
  rewrite last_cons. simpl.
  destruct (parse_featured (right_of m song_title)) eqn:Hp;
    [by apply parse_featured_nonempty in Hp|].
  simpl. by destruct (last ms).
Qed.

Lemma catalog_markers_all_consumed_witness :
  process_spotify_song_name ["A"] "Song feat. B (ft. C)" =
    Ok (["A"; "B (ft. C"; "C"], "Song feat. B").
Proof.
  rewrite (catalog_markers_all_consumed ["A"] "Song feat. B (ft. C)").
  - reflexivity.
  - intros m [<-|[<-|[<-|[<-|[]]]]]; vm_compute; lia.
Defined.

(** The reading of C3 in the specification fails: the first marker found in
    this title is [" feat."], yet the title kept is the part left of
    ["(ft."], and the names of both clauses are appended. *)
Lemma first_match_wins_counterexample :
  let song_title := "Song feat. B (ft. C)" in
  head (matching song_title) = Some " feat."
  ∧ process_spotify_song_name ["A"] song_title
    = Ok (["A"; "B (ft. C"; "C"], "Song feat. B")
  ∧ process_spotify_song_name ["A"] song_title
    ≠ Ok (append_new ["A"] (parse_featured (right_of " feat." song_title)),
          Py.strip (left_of " feat." song_title)).
Proof. split; [reflexivity|]. split; [reflexivity|]. vm_compute. discriminate. Qed.

(** ** The search-title example (C4) *)

(** C4 at its example: the title comes back as ["Song "], the part of the
    right side before ["(ft."] with its trailing blank, where the catalog
    normalizer and the other branches of this function trim. *)
Theorem yt_title_example_untrimmed :
  process_yt_title "A feat. B - Song (ft. C)" = Ok (["A"; "B"; "C"], "Song ")
  ∧ process_yt_title "A feat. B - Song (ft. C)" ≠ Ok (["A"; "B"; "C"], "Song").
Proof. split; [reflexivity|]. vm_compute. discriminate. Qed.

(** ** difflib: blocks stay inside their windows *)

Section block_range.
Variable sm : difflib.SequenceMatcher.
Variables alo ahi blo bhi : nat.
Hypothesis Ha : alo ≤ ahi.
Hypothesis Hb : blo ≤ bhi.

Abbreviation in_window := (in_range alo ahi blo bhi).

Lemma j2lenget_ok n j2len j :
  j2len_ok blo n j2len → blo ≤ j →
  difflib.j2lenget j2len j ≤ n ∧ difflib.j2lenget j2len j + 1 ≤ j + 1 - blo.
Proof.
  intros Hok Hj. destruct j as [|j]; simpl; [lia|].
  destruct (j2len !! j) as [v|] eqn:E; simpl; [|lia].
  destruct (Hok _ _ E) as (? & ? & ?). lia.
Qed.

Lemma inner_loop_range i j2len js best newj2len :
  alo ≤ i < ahi →
  j2len_ok blo (i - alo) j2len →
  in_window best → j2len_ok blo (i + 1 - alo) newj2len →
  in_window (difflib.inner_loop blo bhi i j2len js best newj2len).1
  ∧ j2len_ok blo (i + 1 - alo)
      (difflib.inner_loop blo bhi i j2len js best newj2len).2.
Proof.
  intros Hi Hj2. revert best newj2len.
  induction js as [|j js IH]; intros best newj2len Hbest Hnew; simpl; [done|].
  destruct (j <? blo) eqn:E1; [by apply IH|].
  destruct (bhi <=? j) eqn:E2; [done|].
  apply Nat.ltb_ge in E1. apply Nat.leb_gt in E2.
  destruct (j2lenget_ok _ _ j Hj2 E1) as [Hk1 Hk2].
  apply IH.
  - destruct (difflib.size best <? _); [|done].
    unfold in_range; simpl. lia.
  - intros j' v. rewrite lookup_insert. case_decide; [|by apply Hnew].
    intros [= <-]. subst j'. lia.
Qed.

Lemma outer_loop_range n i best j2len :
  alo ≤ i → i + n ≤ ahi →
  in_window best → j2len_ok blo (i - alo) j2len →
  in_window (difflib.outer_loop sm blo bhi (seq i n) best j2len).
Proof.
  revert i best j2len. induction n as [|n IH]; intros i best j2len ?? Hbest Hj;
    simpl; [done|].
  pose proof (inner_loop_range i j2len
    (default [] (difflib.b2j sm !! difflib.getitem (difflib.a sm) i))
    best ∅ ltac:(lia) Hj Hbest) as Hin.
  destruct (difflib.inner_loop _ _ _ _ _ _ _) as [best' new'].
  destruct Hin as [Hb' Hn']; [by intros ?? ?%lookup_empty_Some|].
  apply IH; [lia|lia|done|].
  by replace (S i - alo) with (i + 1 - alo) by lia.
Qed.

Lemma extend_left_range junk besti bestj bestsize :
  in_window (besti, bestj, bestsize) →
  in_window (difflib.extend_left sm alo blo junk besti bestj bestsize).
Proof.
  revert bestj bestsize.
  induction besti as [|i IH]; intros bestj bestsize Hin; simpl; [done|].
  destruct bestj as [|j]; [done|].
  destruct (_ && _) eqn:E; [|done].
  apply IH. rewrite !andb_true_iff, !Nat.ltb_lt in E.
  destruct E as [[[E1 E2] _] _].
  unfold in_range in *; simpl in *. lia.
Qed.

Lemma extend_right_range n junk besti bestj bestsize :
  in_window (besti, bestj, bestsize) →
  in_window (difflib.extend_right sm ahi bhi n junk besti bestj bestsize).
Proof.
  revert bestsize. induction n as [|n IH]; intros bestsize Hin; simpl; [done|].
  destruct (_ && _) eqn:E; [|done].
  apply IH. rewrite !andb_true_iff, !Nat.ltb_lt in E.
  destruct E as [[[E1 E2] _] _].
  unfold in_range in *; simpl in *. lia.
Qed.

Lemma find_longest_match_range :
  in_window (difflib.find_longest_match sm alo ahi blo bhi).
Proof.
  unfold difflib.find_longest_match.
  pose proof (outer_loop_range (ahi - alo) alo (alo, blo, 0) ∅) as H1.
  destruct (difflib.outer_loop _ _ _ _ _ _) as [[i1 j1] k1].
  pose proof (extend_left_range false i1 j1 k1) as H2.
  destruct (difflib.extend_left _ _ _ false _ _ _) as [[i2 j2] k2].
  pose proof (extend_right_range (ahi - (i2 + k2)) false i2 j2 k2) as H3.
  destruct (difflib.extend_right _ _ _ _ false _ _ _) as [[i3 j3] k3].
  pose proof (extend_left_range true i3 j3 k3) as H4.
  destruct (difflib.extend_left _ _ _ true _ _ _) as [[i4 j4] k4].
  apply extend_right_range, H4, H3, H2, H1; [done|lia| |].
  - unfold in_range; simpl. lia.
  - by intros ?? ?%lookup_empty_Some.
Qed.
End block_range.

(** ** difflib: the work list empties, and the blocks fit in both strings *)

#[local] Arguments difflib.find_longest_match : simpl never.

Lemma total_app l1 l2 : total (l1 ++ l2) = total l1 + total l2.
Proof. unfold total. by rewrite map_app, list_sum_app. Qed.

Lemma rounds_cons alo ahi blo bhi queue :
  rounds ((alo, ahi, blo, bhi) :: queue) = 2 * (ahi - alo) + 1 + rounds queue.
Proof. done. Qed.

Lemma width_a_cons alo ahi blo bhi queue :
  width_a ((alo, ahi, blo, bhi) :: queue) = ahi - alo + width_a queue.
Proof. done. Qed.

Lemma width_b_cons alo ahi blo bhi queue :
  width_b ((alo, ahi, blo, bhi) :: queue) = bhi - blo + width_b queue.
Proof. done. Qed.

Lemma total_cons i j k blocks : total ((i, j, k) :: blocks) = k + total blocks.
Proof. done. Qed.

Lemma blocks_loop_terminates sm fuel queue blocks :
  Forall window_ok queue → rounds queue ≤ fuel →
  is_Some (difflib.blocks_loop sm fuel queue blocks).
Proof.
  revert queue blocks.
  induction fuel as [|fuel IH]; intros queue blocks Hq Hf.
  { destruct queue as [|[[[??]?]?] ?]; [by eexists|].
    rewrite rounds_cons in Hf. lia. }
  destruct queue as [|[[[alo ahi] blo] bhi] queue]; [by eexists|].
  apply Forall_cons in Hq as [[Ha Hb] Hq]; simpl in Ha, Hb.
  pose proof (find_longest_match_range sm alo ahi blo bhi Ha Hb) as Hr.
  rewrite rounds_cons in Hf.
  simpl. destruct (difflib.find_longest_match _ _ _ _ _) as [[i j] k].
  destruct Hr as (?&?&?&?); simpl in *.
  destruct (0 <? k) eqn:Ek; [|apply IH; [done|lia]].
  apply Nat.ltb_lt in Ek.
  apply IH.
  - destruct (_ && _), (_ && _);
      repeat (apply Forall_cons_2; [split; simpl; lia|]); done.
  - destruct (_ && _), (_ && _); rewrite ?rounds_cons; lia.
Qed.

Lemma blocks_loop_total sm fuel queue blocks r :
  Forall window_ok queue →
  difflib.blocks_loop sm fuel queue blocks = Some r →
  total r ≤ total blocks + width_a queue
  ∧ total r ≤ total blocks + width_b queue.
Proof.
  revert queue blocks.
  induction fuel as [|fuel IH]; intros queue blocks Hq Hr.
  { destruct queue as [|[[[??]?]?] ?]; simplify_eq/=. lia. }
  destruct queue as [|[[[alo ahi] blo] bhi] queue]; [simplify_eq/=; lia|].
  apply Forall_cons in Hq as [[Ha Hb] Hq]; simpl in Ha, Hb.
  pose proof (find_longest_match_range sm alo ahi blo bhi Ha Hb) as Hm.
  rewrite width_a_cons, width_b_cons. simpl in Hr.
  destruct (difflib.find_longest_match _ _ _ _ _) as [[i j] k].
  destruct Hm as (?&?&?&?); simpl in *.
  destruct (0 <? k) eqn:Ek.
  - apply IH in Hr.
    + rewrite total_app, total_cons in Hr.
      revert Hr. destruct (_ && _), (_ && _);
        rewrite ?width_a_cons, ?width_b_cons; change (total []) with 0; lia.
    + destruct (_ && _), (_ && _);
        repeat (apply Forall_cons_2; [split; simpl; lia|]); done.
  - apply IH in Hr; [lia|done].
Qed.

Lemma total_insert_sorted x l :
  total (difflib.insert_sorted x l) = difflib.size x + total l.
Proof.
  induction l as [|y l IH]; simpl; [done|].
  destruct (difflib.Match_leb x y); [done|].
  unfold total in *; simpl. rewrite IH. lia.
Qed.

Lemma total_sort l : total (difflib.sort l) = total l.
Proof.
  induction l as [|x l IH]; simpl; [done|].
  rewrite total_insert_sorted, IH. done.
Qed.

Lemma total_collapse blocks i1 j1 k1 non_adjacent :
  total (difflib.collapse blocks i1 j1 k1 non_adjacent)
  = total non_adjacent + k1 + total blocks.
Proof.
  revert i1 j1 k1 non_adjacent.
  induction blocks as [|[[i2 j2] k2] blocks IH]; intros i1 j1 k1 na; simpl.
  - destruct (0 <? k1) eqn:E.
    + rewrite total_app. unfold total; simpl. lia.
    + apply Nat.ltb_ge in E. unfold total; simpl. lia.
  - destruct (_ && _); rewrite IH.
    + unfold total; simpl. lia.
    + destruct (0 <? k1) eqn:E.
      * rewrite total_app. unfold total; simpl. lia.
      * apply Nat.ltb_ge in E. unfold total; simpl. lia.
Qed.

Lemma initial_window_ok la lb : Forall window_ok [(0, la, 0, lb)].
Proof. apply Forall_cons. split; [split; simpl; lia|done]. Qed.

(** [get_matching_blocks] never takes its out-of-fuel branch. *)
Lemma get_matching_blocks_runs sm :
  ∃ blocks,
    difflib.blocks_loop sm (2 * length (difflib.a sm) + 1)
      [(0, length (difflib.a sm), 0, length (difflib.b sm))] [] = Some blocks
    ∧ difflib.get_matching_blocks sm =
        difflib.collapse (difflib.sort blocks) 0 0 0 []
        ++ [(length (difflib.a sm), length (difflib.b sm), 0)].
Proof.
  destruct (blocks_loop_terminates sm (2 * length (difflib.a sm) + 1)
              [(0, length (difflib.a sm), 0, length (difflib.b sm))] [])
    as [blocks Hb].
  - apply initial_window_ok.
  - unfold rounds; simpl. lia.
  - exists blocks. split; [done|].
    unfold difflib.get_matching_blocks. by rewrite Hb.
Qed.

Lemma get_matching_blocks_total sm :
  total (difflib.get_matching_blocks sm) ≤ length (difflib.a sm)
  ∧ total (difflib.get_matching_blocks sm) ≤ length (difflib.b sm).
Proof.
  destruct (get_matching_blocks_runs sm) as (blocks & Hb & ->).
  apply blocks_loop_total in Hb; [|apply initial_window_ok].
  rewrite total_app, total_collapse, total_sort.
  unfold width_a, width_b, total in *; simpl in *. lia.
Qed.

(** ** difflib: the ratio is between 0 and 1 *)

Lemma calculate_ratio_bounds matches len :
  2 * matches ≤ len →
  (0 <= difflib.calculate_ratio matches len)%Q
  ∧ (difflib.calculate_ratio matches len <= 1)%Q.
Proof.
  intros H. unfold difflib.calculate_ratio.
  destruct (0 <? len) eqn:E; [|split; done].
  apply Nat.ltb_lt in E. rewrite Qred_correct.
  assert (0 < inject_Z (Z.of_nat len))%Q as Hpos.
  { change 0%Q with (inject_Z 0). rewrite <- Zlt_Qlt. lia. }
  change 2%Q with (inject_Z 2). rewrite <- inject_Z_mult. split.
  - apply Qle_shift_div_l; [done|]. rewrite Qmult_0_l.
    change 0%Q with (inject_Z 0). rewrite <- Zle_Qle. lia.
  - apply Qle_shift_div_r; [done|]. rewrite Qmult_1_l.
    rewrite <- Zle_Qle. lia.
Qed.

Lemma ratio_bounds sm : (0 <= difflib.ratio sm)%Q ∧ (difflib.ratio sm <= 1)%Q.
Proof.
  unfold difflib.ratio. apply calculate_ratio_bounds.
  pose proof (get_matching_blocks_total sm). unfold total in *. lia.
Qed.

Lemma similarity_ratio_bounds s1 s2 :
  (0 <= similarity_ratio s1 s2)%Q ∧ (similarity_ratio s1 s2 <= 1)%Q.
Proof. apply ratio_bounds. Qed.

(** ** difflib: what [b2j] holds *)

Lemma chain_loop_lookup i b m c :
  difflib.chain_loop i b m !! c =
    match indices_from i c b with
    | [] => m !! c
    | idx => Some (default [] (m !! c) ++ idx)
    end.
Proof.
  revert i m. induction b as [|e b IH]; intros i m; simpl; [done|].
  rewrite IH. destruct (decide (e = c)) as [->|Hne]; simpl.
  - rewrite lookup_insert_eq. simpl.
    destruct (indices_from (S i) c b); [done|]. by rewrite <- app_assoc.
  - by rewrite lookup_insert_ne.
Qed.

Lemma new_b2j_lookup a b c idxs :
  difflib.b2j (difflib.new a b) !! c = Some idxs → idxs = indices_from 0 c b.
Proof.
  unfold difflib.new. destruct (200 <=? length b); simpl.
  - intros [H _]%map_lookup_filter_Some. revert H.
    rewrite chain_loop_lookup, lookup_empty.
    destruct (indices_from 0 c b); naive_solver.
  - rewrite chain_loop_lookup, lookup_empty.
    destruct (indices_from 0 c b); naive_solver.
Qed.

Lemma indices_from_bound i c l j :
  j ∈ indices_from i c l →
  i ≤ j < i + length l ∧ difflib.getitem l (j - i) = c.
Proof.
  revert i. induction l as [|e l IH]; intros i; simpl.
  { by intros ?%elem_of_nil. }
  rewrite elem_of_app. intros [H|H].
  - destruct (decide (e = c)) as [->|]; [|by apply elem_of_nil in H].
    apply list_elem_of_singleton in H as ->.
    rewrite Nat.sub_diag. split; [lia|done].
  - apply IH in H as [? H]. split; [lia|].
    replace (j - i) with (S (j - S i)) by lia. done.
Qed.

Lemma indices_from_complete i c l p :
  p < length l → difflib.getitem l p = c → i + p ∈ indices_from i c l.
Proof.
  revert i p. induction l as [|e l IH]; intros i p Hp Hc; simpl in *; [lia|].
  apply elem_of_app. destruct p as [|p].
  - left. unfold difflib.getitem in Hc; simpl in Hc. subst e.
    rewrite decide_True by done. rewrite Nat.add_0_r. by left.
  - right. replace (i + S p) with (S i + p) by lia. apply IH; [lia|done].
Qed.

Lemma indices_from_sorted i c l : StronglySorted lt (indices_from i c l).
Proof.
  revert i. induction l as [|e l IH]; intros i; simpl; [constructor|].
  destruct (decide (e = c)); simpl; [|apply IH].
  constructor; [apply IH|].
  apply Forall_forall. intros j Hj%indices_from_bound. lia.
Qed.

(** ** difflib: a string against itself *)

#[local] Arguments run_length : simpl never.

Section identical.
Variable sm : difflib.SequenceMatcher.
Variable x : list ascii.
Hypothesis Hsa : difflib.a sm = x.
Hypothesis Hsb : difflib.b sm = x.
Hypothesis Hjunk : difflib.bjunk sm = ∅.
Hypothesis Hb2j :
  ∀ c idxs, difflib.b2j sm !! c = Some idxs → idxs = indices_from 0 c x.

Abbreviation run := (run_length (difflib.b2j sm) x).
Abbreviation before := (run_before (difflib.b2j sm) x).

Lemma run_listed i :
  is_Some (difflib.b2j sm !! difflib.getitem x i) → run i = S (before i).
Proof.
  intros H. destruct i; unfold run_length; fold run_length;
    by rewrite bool_decide_eq_true_2.
Qed.

Lemma run_unlisted i :
  difflib.b2j sm !! difflib.getitem x i = None → run i = 0.
Proof.
  intros H. destruct i; unfold run_length; fold run_length;
    rewrite bool_decide_eq_false_2; try done; rewrite H; by intros [??].
Qed.

Lemma isbjunk_false c : difflib.isbjunk sm c = false.
Proof.
  unfold difflib.isbjunk. rewrite Hjunk. by apply bool_decide_eq_false_2.
Qed.

(** One row of the search keeps the best block on the diagonal: a run of
    matches off the diagonal is never longer than the runs already seen on
    it. *)
Lemma inner_loop_diagonal i j2len js best newj2len :
  is_Some (difflib.b2j sm !! difflib.getitem x i) →
  StronglySorted lt js →
  (∀ j, j ∈ js → j < length x ∧ difflib.getitem x j = difflib.getitem x i) →
  (∀ j, difflib.j2lenget j2len j ≤ before j) →
  (∀ j, difflib.j2lenget j2len j ≤ before i) →
  difflib.j2lenget j2len i = before i →
  best.1.1 = best.1.2 →
  (∀ p, p < i → run p ≤ difflib.size best) →
  (∀ j v, newj2len !! j = Some v → v ≤ run j ∧ v ≤ run i) →
  (i ∈ js ∨ (run i ≤ difflib.size best ∧ newj2len !! i = Some (run i))) →
  ∃ best' newj2len',
    difflib.inner_loop 0 (length x) i j2len js best newj2len
      = (best', newj2len')
    ∧ best'.1.1 = best'.1.2
    ∧ (∀ p, p < S i → run p ≤ difflib.size best')
    ∧ (∀ j v, newj2len' !! j = Some v → v ≤ run j ∧ v ≤ run i)
    ∧ newj2len' !! i = Some (run i).
Proof.
  intros Hi Hsorted Hjs G1 G2 G3. revert best newj2len Hsorted Hjs.
  pose proof (run_listed i Hi) as Hri.
  induction js as [|j js IH]; intros best newj2len Hsorted Hjs D B N C.
  { destruct C as [C|[C1 C2]]; [by apply elem_of_nil in C|].
    exists best, newj2len. split_and!; try done.
    intros p Hp. destruct (decide (p = i)) as [->|]; [done|apply B; lia]. }
  apply StronglySorted_inv in Hsorted as [Hsorted Hall].
  destruct (Hjs j ltac:(by left)) as [Hjn Hjx].
  assert (run j = S (before j)) as Hrj by (apply run_listed; by rewrite Hjx).
  assert (∀ j', j' ∈ js →
            j' < length x ∧ difflib.getitem x j' = difflib.getitem x i)
    as Hjs' by (intros; apply Hjs; by right).
  pose proof (G1 j) as G1j. pose proof (G2 j) as G2j.
  destruct best as [[bi bj] bs]. unfold difflib.size in *. simpl in D, B, C.
  cbn [difflib.inner_loop]. change (j <? 0) with false. cbv iota.
  rewrite (proj2 (Nat.leb_gt (length x) j)) by done.
  unfold difflib.size; cbn [snd fst].
  destruct (lt_eq_lt_dec j i) as [[Hlt|Heq]|Hgt].
  - pose proof (B j Hlt).
    rewrite (proj2 (Nat.ltb_ge _ _)) by lia.
    apply IH; try done.
    + intros j' v. rewrite lookup_insert. case_decide; [|by apply N].
      intros [= <-]. subst j'. lia.
    + destruct C as [C|[C1 C2]].
      * left. apply elem_of_cons in C as [->|]; [lia|done].
      * right. split; [done|]. rewrite lookup_insert_ne by lia. done.
  - subst j.
    assert (∀ j' v, <[i:=difflib.j2lenget j2len i + 1]> newj2len !! j'
                      = Some v → v ≤ run j' ∧ v ≤ run i) as N'.
    { intros j' v. rewrite lookup_insert. case_decide; [|by apply N].
      intros [= <-]. subst j'. lia. }
    destruct (bs <? difflib.j2lenget j2len i + 1) eqn:E.
    + apply Nat.ltb_lt in E. apply IH; try done.
      * simpl. intros p Hp. pose proof (B p Hp). lia.
      * right. simpl. split; [lia|]. rewrite lookup_insert_eq. f_equal. lia.
    + apply Nat.ltb_ge in E. apply IH; try done.
      right. simpl. split; [lia|]. rewrite lookup_insert_eq. f_equal. lia.
  - destruct C as [C|[C1 C2]].
    { apply elem_of_cons in C as [->|C]; [lia|].
      rewrite Forall_forall in Hall. apply Hall in C. lia. }
    rewrite (proj2 (Nat.ltb_ge _ _)) by lia.
    apply IH; try done.
    + intros j' v. rewrite lookup_insert. case_decide; [|by apply N].
      intros [= <-]. subst j'. lia.
    + right. split; [done|]. rewrite lookup_insert_ne by lia. done.
Qed.

Lemma outer_loop_diagonal k i best j2len :
  i + k = length x →
  (∀ j, difflib.j2lenget j2len j ≤ before j) →
  (∀ j, difflib.j2lenget j2len j ≤ before i) →
  difflib.j2lenget j2len i = before i →
  best.1.1 = best.1.2 →
  (∀ p, p < i → run p ≤ difflib.size best) →
  (difflib.outer_loop sm 0 (length x) (seq i k) best j2len).1.1
  = (difflib.outer_loop sm 0 (length x) (seq i k) best j2len).1.2.
Proof.
  revert i best j2len.
  induction k as [|k IH]; intros i best j2len Hik G1 G2 G3 D B; [done|].
  cbn [seq difflib.outer_loop]. rewrite Hsa.
  destruct (difflib.b2j sm !! difflib.getitem x i) as [js|] eqn:E.
  - pose proof (Hb2j _ _ E) as ->. cbn [from_option id].
    assert (is_Some (difflib.b2j sm !! difflib.getitem x i)) as H1
      by by rewrite E.
    pose proof (indices_from_sorted 0 (difflib.getitem x i) x) as H2.
    assert (∀ j, j ∈ indices_from 0 (difflib.getitem x i) x →
              j < length x ∧ difflib.getitem x j = difflib.getitem x i) as H3.
    { intros j Hj%indices_from_bound. rewrite Nat.sub_0_r in Hj.
      split; [lia|tauto]. }
    assert (∀ j v, (∅ : gmap nat nat) !! j = Some v → v ≤ run j ∧ v ≤ run i)
      as H4 by by intros ?? ?%lookup_empty_Some.
    assert (i ∈ indices_from 0 (difflib.getitem x i) x) as H5
      by (apply (indices_from_complete 0 _ x i); [lia|done]).
    destruct (inner_loop_diagonal i j2len _ best ∅ H1 H2 H3 G1 G2 G3 D B H4
                (or_introl H5))
      as (best' & new' & -> & D' & B' & N' & Hi').
    apply IH; try done; [lia| | |].
    + intros [|j]; simpl; [lia|].
      destruct (new' !! j) as [v|] eqn:E'; simpl; [|lia].
      by apply N' in E' as [? _].
    + intros [|j]; simpl; [lia|].
      destruct (new' !! j) as [v|] eqn:E'; simpl; [|lia].
      by apply N' in E' as [_ ?].
    + simpl. by rewrite Hi'.
  - cbn [from_option id difflib.inner_loop].
    apply IH; try done; [lia| | | |].
    + intros [|j]; simpl; [lia|]. rewrite lookup_empty. simpl. lia.
    + intros [|j]; simpl; [lia|]. rewrite lookup_empty. simpl. lia.
    + simpl. rewrite lookup_empty. simpl. by rewrite run_unlisted.
    + intros p Hp. destruct (decide (p = i)) as [->|]; [|apply B; lia].
      rewrite run_unlisted by done. lia.
Qed.

Lemma extend_left_diagonal d k :
  difflib.extend_left sm 0 0 false d d k = (0, 0, k + d).
Proof.
  revert k. induction d as [|d IH]; intros k; simpl.
  { f_equal. lia. }
  rewrite isbjunk_false, Hsa, Hsb. simpl.
  rewrite bool_decide_eq_true_2 by done. rewrite IH. f_equal. lia.
Qed.

Lemma extend_right_diagonal r s :
  s + r = length x →
  difflib.extend_right sm (length x) (length x) r false 0 0 s
  = (0, 0, length x).
Proof.
  revert s. induction r as [|r IH]; intros s Hs; simpl.
  { f_equal. lia. }
  rewrite (proj2 (Nat.ltb_lt s (length x))) by lia.
  rewrite isbjunk_false, Hsa, Hsb. simpl.
  rewrite bool_decide_eq_true_2 by done. apply IH. lia.
Qed.

Lemma find_longest_match_identical :
  difflib.find_longest_match sm 0 (length x) 0 (length x) = (0, 0, length x).
Proof.
  unfold difflib.find_longest_match. rewrite Nat.sub_0_r.
  assert (∀ j, difflib.j2lenget ∅ j ≤ 0) as G.
  { intros [|j]; simpl; [lia|]. rewrite lookup_empty. simpl. lia. }
  assert (in_range 0 (length x) 0 (length x) (0, 0, 0)) as R0
    by (unfold in_range; simpl; lia).
  assert (j2len_ok 0 (0 - 0) ∅) as J0 by by intros ?? ?%lookup_empty_Some.
  assert (∀ j, difflib.j2lenget ∅ j ≤ before j) as G1
    by (intros j; pose proof (G j); lia).
  pose proof (outer_loop_diagonal (length x) 0 (0, 0, 0) ∅
                eq_refl G1 G eq_refl eq_refl ltac:(intros; lia)) as D.
  pose proof (outer_loop_range sm 0 (length x) 0 (length x)
                (Nat.le_0_l _) (Nat.le_0_l _) (length x) 0 (0, 0, 0) ∅
                (Nat.le_0_l _) (Nat.le_refl _) R0 J0) as R.
  destruct (difflib.outer_loop _ _ _ _ _ _) as [[d d'] k].
  simpl in D. subst d'. destruct R as (_ & R & _). simpl in R.
  rewrite extend_left_diagonal.
  rewrite extend_right_diagonal by lia.
  simpl. replace (length x - length x) with 0 by lia. done.
Qed.

Lemma blocks_loop_nil fuel blocks :
  difflib.blocks_loop sm fuel [] blocks = Some blocks.
Proof. by destruct fuel. Qed.

Lemma get_matching_blocks_identical :
  total (difflib.get_matching_blocks sm) = length x.
Proof.
  destruct (get_matching_blocks_runs sm) as (blocks & Hb & ->).
  rewrite Hsa, Hsb in *.
  replace (2 * length x + 1) with (S (2 * length x)) in Hb by lia.
  cbn [difflib.blocks_loop] in Hb.
  rewrite find_longest_match_identical in Hb.
  rewrite total_app, total_collapse, total_sort.
  change (total [(length x, length x, 0)]) with 0. change (total []) with 0.
  destruct (0 <? length x) eqn:E.
  - change (0 <? 0) with false in Hb. cbn [andb] in Hb.
    rewrite Nat.add_0_l, Nat.ltb_irrefl in Hb. cbn [andb] in Hb.
    rewrite blocks_loop_nil in Hb. injection Hb as <-.
    simpl. rewrite total_cons. change (total []) with 0. lia.
  - rewrite blocks_loop_nil in Hb. injection Hb as <-.
    apply Nat.ltb_ge in E. change (total []) with 0. lia.
Qed.
End identical.

(** ** The similarity ratio (C9) *)

Lemma calculate_ratio_full n : difflib.calculate_ratio n (n + n) = 1%Q.
Proof.
  unfold difflib.calculate_ratio. destruct (0 <? n + n) eqn:E; [|done].
  apply Nat.ltb_lt in E. change 1%Q with (Qred 1). apply Qred_complete.
  change 2%Q with (inject_Z 2). rewrite <- inject_Z_mult.
  replace (Z.of_nat (n + n)) with (2 * Z.of_nat n)%Z by lia.
  apply Qmult_inv_r. change 0%Q with (inject_Z 0). rewrite inject_Z_injective.
  lia.
Qed.

Lemma new_fields a b :
  difflib.a (difflib.new a b) = a ∧ difflib.b (difflib.new a b) = b
  ∧ difflib.bjunk (difflib.new a b) = ∅.
Proof. unfold difflib.new. by destruct (200 <=? length b). Qed.

Lemma ratio_identical x : difflib.ratio (difflib.new x x) = 1%Q.
Proof.
  destruct (new_fields x x) as (Ha & Hb & Hj).
  unfold difflib.ratio. fold (total (difflib.get_matching_blocks (difflib.new x x))).
  rewrite (get_matching_blocks_identical _ x Ha Hb Hj (new_b2j_lookup x x)).
  rewrite Ha, Hb. apply calculate_ratio_full.
Qed.

Lemma similarity_ratio_same s1 s2 :
  Py.lower s1 = Py.lower s2 → similarity_ratio s1 s2 = 1%Q.
Proof. intros H. unfold similarity_ratio. rewrite H. apply ratio_identical. Qed.

Lemma lower_ascii_idempotent c :
  Py.lower_ascii (Py.lower_ascii c) = Py.lower_ascii c.
Proof. by destruct c as [[] [] [] [] [] [] [] []]. Qed.

Lemma lower_idempotent s : Py.lower (Py.lower s) = Py.lower s.
Proof.
  induction s as [|c s IH]; simpl; [done|].
  by rewrite lower_ascii_idempotent, IH.
Qed.

(** C9 without its symmetry clause. The similarity of two strings is a
    ratio between 0 and 1; it is 1 for a string against itself (empty or
    not) and for any two strings that are equal once lower-cased; and
    lower-casing either argument does not change it. *)
Theorem similarity_ratio_properties (s1 s2 : string) :
  (0 <= similarity_ratio s1 s2)%Q ∧ (similarity_ratio s1 s2 <= 1)%Q
  ∧ similarity_ratio s1 s1 = 1%Q
  ∧ (Py.lower s1 = Py.lower s2 → similarity_ratio s1 s2 = 1%Q)
  ∧ similarity_ratio (Py.lower s1) s2 = similarity_ratio s1 s2
  ∧ similarity_ratio s1 (Py.lower s2) = similarity_ratio s1 s2.
Proof.
  destruct (similarity_ratio_bounds s1 s2) as [H0 H1].
  split_and!; try done.
  - by apply similarity_ratio_same.
  - apply similarity_ratio_same.
  - unfold similarity_ratio. by rewrite lower_idempotent.
  - unfold similarity_ratio. by rewrite lower_idempotent.
Qed.

Lemma similarity_ratio_properties_witness :
  similarity_ratio "Hello World" "hello world" = 1%Q.
Proof.
  destruct (similarity_ratio_properties "Hello World" "hello world")
    as (_ & _ & _ & H & _).
  apply H. reflexivity.
Defined.

(** The symmetry clause of C9 fails: the block search favours the first
    string's order, and the two directions find one and two matching
    characters here. *)
Lemma similarity_ratio_not_symmetric :
  similarity_ratio "tide" "diet" = (1 # 4)%Q
  ∧ similarity_ratio "diet" "tide" = (1 # 2)%Q
  ∧ ¬ (similarity_ratio "tide" "diet" == similarity_ratio "diet" "tide")%Q.
Proof.
  split; [by vm_compute|]. split; [by vm_compute|].
  vm_compute. discriminate.
Qed.

(** ** Candidate evaluation (C5, C7, C8) *)

Lemma Qgtb_true x y : Qgtb x y = true ↔ (y < x)%Q.
Proof.
  unfold Qgtb. rewrite negb_true_iff, <- not_true_iff_false, Qle_bool_iff.
  split; [apply Qnot_le_lt|apply Qlt_not_le].
Qed.

Lemma Qgtb_false x y : Qgtb x y = false ↔ (x <= y)%Q.
Proof. unfold Qgtb. by rewrite negb_false_iff, Qle_bool_iff. Qed.

Lemma search_single_track_gated entry track tol tt at_ :
  (tol < duration_diff entry track)%Q →
  search_single_track entry track tol tt at_ = Ok (None, 0%Q, 0%Q).
Proof.
  intros H. unfold search_single_track. fold (duration_diff entry track).
  by rewrite (proj2 (Qgtb_true _ _) H).
Qed.

Lemma search_single_track_scored entry track tol tt at_ ar t :
  (duration_diff entry track <= tol)%Q →
  comparison_strings entry = Ok (ar, t) →
  search_single_track entry track tol tt at_ =
    let title_similarity := similarity_ratio t (song_name track) in
    let artist_similarity :=
      similarity_ratio (Py.join ", " ar) (Py.join ", " (artists track)) in
    if Qgtb tt title_similarity || Qgtb at_ artist_similarity
    then Ok (None, title_similarity, artist_similarity)
    else Ok (Some (webpage_url entry), title_similarity, artist_similarity).
Proof.
  intros H Hc. unfold search_single_track. fold (duration_diff entry track).
  rewrite (proj2 (Qgtb_false _ _) H). fold (comparison_strings entry).
  by rewrite Hc.
Qed.

Lemma search_single_track_raises entry track tol tt at_ e :
  (duration_diff entry track <= tol)%Q →
  comparison_strings entry = Raise e →
  search_single_track entry track tol tt at_ = Raise e.
Proof.
  intros H Hc. unfold search_single_track. fold (duration_diff entry track).
  rewrite (proj2 (Qgtb_false _ _) H). fold (comparison_strings entry).
  by rewrite Hc.
Qed.

(** C5. The duration gate is a hard cut-off. A candidate whose duration
    differs from the track's by more than the tolerance is rejected at once,
    with no url and the scores (0, 0), whatever its title and artists. A
    candidate whose duration differs by exactly the tolerance passes the gate:
    it is accepted, with its url, as soon as the two similarity ratios reach
    their thresholds. *)
Theorem duration_gate (entry : yt_result) (track : track_info)
    (duration_tolerance title_threshold artist_threshold : Q) :
  ((duration_tolerance < duration_diff entry track)%Q →
   search_single_track entry track duration_tolerance title_threshold
     artist_threshold = Ok (None, 0%Q, 0%Q))
  ∧ (∀ ar t,
       (duration_diff entry track == duration_tolerance)%Q →
       comparison_strings entry = Ok (ar, t) →
       (title_threshold <= similarity_ratio t (song_name track))%Q →
       (artist_threshold
        <= similarity_ratio (Py.join ", " ar) (Py.join ", " (artists track)))%Q →
       search_single_track entry track duration_tolerance title_threshold
         artist_threshold =
         Ok (Some (webpage_url entry),
             similarity_ratio t (song_name track),
             similarity_ratio (Py.join ", " ar)
                              (Py.join ", " (artists track)))).
Proof.
  split; [apply search_single_track_gated|].
  intros ar t Hd Hc Ht Ha.
  rewrite (search_single_track_scored _ _ _ _ _ ar t);
    [|rewrite Hd; apply Qle_refl|done].
  simpl. by rewrite (proj2 (Qgtb_false _ _) Ht), (proj2 (Qgtb_false _ _) Ha).
Qed.

Lemma duration_gate_witness :
  search_single_track
    {| duration := 111; title := "A - X"; artist := None; webpage_url := "u2" |}
    track_X 10 (7 # 10) (5 # 100) = Ok (None, 0%Q, 0%Q)
  ∧ search_single_track
      {| duration := 110; title := "A - X"; artist := None; webpage_url := "u1" |}
      track_X 10 (7 # 10) (5 # 100) = Ok (Some "u1", 1%Q, 1%Q).
Proof.
  split.
  - destruct (duration_gate
                {| duration := 111; title := "A - X"; artist := None;
                   webpage_url := "u2" |} track_X 10 (7 # 10) (5 # 100))
      as [H _].
    apply H. vm_compute. reflexivity.
  - destruct (duration_gate
                {| duration := 110; title := "A - X"; artist := None;
                   webpage_url := "u1" |} track_X 10 (7 # 10) (5 # 100))
      as [_ H].
    rewrite (H ["A"] "X").
    + vm_compute. reflexivity.
    + vm_compute. reflexivity.
    + reflexivity.
    + vm_compute. discriminate.
    + vm_compute. discriminate.
Defined.

(** C7. A candidate whose comparison title and artists are exactly the
    track's, and whose duration is the track's, is accepted with its url and
    the scores (1, 1): under the default tolerance and thresholds, and under
    any tolerance that is not negative and thresholds that are at most 1. *)
Theorem exact_match_accepted (entry : yt_result) (track : track_info)
    (duration_tolerance title_threshold artist_threshold : Q)
    (Htol : (0 <= duration_tolerance)%Q)
    (Htt : (title_threshold <= 1)%Q) (Hat : (artist_threshold <= 1)%Q)
    (Hdur : (duration entry == duration_ms track)%Q)
    (Hcmp : comparison_strings entry = Ok (artists track, song_name track)) :
  search_single_track entry track duration_tolerance title_threshold
    artist_threshold = Ok (Some (webpage_url entry), 1%Q, 1%Q).
Proof.
  rewrite (search_single_track_scored _ _ _ _ _ (artists track)
             (song_name track)); [| |done].
  - rewrite !similarity_ratio_same by done. simpl.
    by rewrite (proj2 (Qgtb_false _ _) Htt), (proj2 (Qgtb_false _ _) Hat).
  - unfold duration_diff.
    assert (duration entry - duration_ms track == 0)%Q as ->
      by (rewrite Hdur; ring).
    done.
Qed.

Lemma exact_match_accepted_witness :
  search_single_track
    {| duration := 100; title := "A - X"; artist := None; webpage_url := "u1" |}
    track_X 10 (7 # 10) (5 # 100) = Ok (Some "u1", 1%Q, 1%Q).
Proof.
  apply exact_match_accepted;
    [vm_compute; discriminate|vm_compute; discriminate
    |vm_compute; discriminate|reflexivity|reflexivity].
Defined.

(** C8, as the code has it. A result without a url comes from one of two
    places. The duration gate rejects with the scores (0, 0). The threshold
    test rejects with the two similarity ratios it computed, one of which is
    below its threshold; these are not reset to 0. *)
Theorem rejected_scores (entry : yt_result) (track : track_info)
    (duration_tolerance title_threshold artist_threshold : Q)
    (title_score artist_score : Q)
    (Hrej : search_single_track entry track duration_tolerance title_threshold
              artist_threshold = Ok (None, title_score, artist_score)) :
  ((duration_tolerance < duration_diff entry track)%Q
   ∧ title_score = 0%Q ∧ artist_score = 0%Q)
  ∨ ((duration_diff entry track <= duration_tolerance)%Q
     ∧ ∃ ar t,
         comparison_strings entry = Ok (ar, t)
         ∧ title_score = similarity_ratio t (song_name track)
         ∧ artist_score = similarity_ratio (Py.join ", " ar)
                                           (Py.join ", " (artists track))
         ∧ ((title_score < title_threshold)%Q
            ∨ (artist_score < artist_threshold)%Q)).
Proof.
  destruct (Qlt_le_dec duration_tolerance (duration_diff entry track))
    as [Hgt|Hle].
  - left. rewrite search_single_track_gated in Hrej by done. naive_solver.
  - right. split; [done|].
    destruct (comparison_strings entry) as [[ar t]|e] eqn:Hc.
    + rewrite (search_single_track_scored _ _ _ _ _ ar t) in Hrej by done.
      simpl in Hrej. exists ar, t.
      destruct (Qgtb title_threshold _ || Qgtb artist_threshold _) eqn:E;
        [|done].
      injection Hrej as <- <-. split_and!; try done.
      apply orb_true_iff in E as [E|E]; apply Qgtb_true in E; auto.
    + by rewrite (search_single_track_raises _ _ _ _ _ e) in Hrej.
Qed.

Lemma rejected_scores_witness :
  (2 # 3 = similarity_ratio "Xy" "X")%Q ∧ (2 # 3 < 7 # 10)%Q.
Proof.
  assert (search_single_track weak_title_entry track_X 10 (7 # 10) (5 # 100)
          = Ok (None, (2 # 3)%Q, 1%Q)) as Hrej by (vm_compute; reflexivity).
  destruct (rejected_scores weak_title_entry track_X 10 (7 # 10) (5 # 100)
              (2 # 3) 1 Hrej) as [(H & _)|(_ & ar & t & Hc & Ht & _ & _)].
  - vm_compute in H. discriminate.
  - injection Hc as <- <-. split; [exact Ht|reflexivity].
Defined.

(** The reading of C8 in the specification fails: this candidate passes the
    duration gate and is rejected on its title, and its scores come back as
    2/3 and 1. *)
Lemma rejected_scores_counterexample :
  search_single_track weak_title_entry track_X 10 (7 # 10) (5 # 100)
    = Ok (None, (2 # 3)%Q, 1%Q)
  ∧ ¬ ((2 # 3) == 0)%Q ∧ ¬ (1 == 0)%Q.
Proof. split; [by vm_compute|]. split; vm_compute; discriminate. Qed.

(** ** Collecting and ranking the matches (C6) *)

Lemma lookup_map {A B} (f : A → B) (l : list A) i :
  map f l !! i = f <$> l !! i.
Proof. revert i. induction l as [|x l IH]; intros [|i]; simpl; auto. Qed.

Lemma as_completed_map {A B} (f : A → B) completion (l : list A) :
  as_completed completion (map f l) = map f (as_completed completion l).
Proof.
  induction completion as [|i completion IH]; simpl; [done|].
  rewrite lookup_map, IH. by destruct (l !! i).
Qed.

Lemma as_completed_elem {A} completion (l : list A) i x :
  i ∈ completion → l !! i = Some x → x ∈ as_completed completion l.
Proof.
  intros Hi Hx. induction completion as [|i' completion IH]; simpl.
  { by apply elem_of_nil in Hi. }
  apply elem_of_cons in Hi as [<-|Hi].
  - rewrite Hx. by left.
  - destruct (l !! i'); [right|]; by apply IH.
Qed.

Lemma as_completed_sub {A} completion (l : list A) x :
  x ∈ as_completed completion l → x ∈ l.
Proof.
  induction completion as [|i completion IH]; simpl.
  { by intros ?%elem_of_nil. }
  destruct (l !! i) as [y|] eqn:E; [|done].
  intros [->|H]%elem_of_cons; [|by apply IH].
  by apply list_elem_of_lookup_2 in E.
Qed.

(** Every future is handed over when [completion] lists each position
    once. *)
Lemma as_completed_all {A} completion (l : list A) x :
  Permutation completion (seq 0 (length l)) →
  x ∈ l → x ∈ as_completed completion l.
Proof.
  intros Hp [i Hi]%list_elem_of_lookup_1.
  apply (as_completed_elem _ _ i); [|done].
  rewrite Hp. apply list_elem_of_In, in_seq.
  apply lookup_lt_Some in Hi. lia.
Qed.

Lemma collect_matches_ok results matches :
  collect_matches (map Ok results) matches
  = Ok (matches ++ List.filter (fun m => truthy m.1.1) results).
Proof.
  revert matches. induction results as [|m results IH]; intros matches; simpl.
  { by rewrite app_nil_r. }
  rewrite IH. destruct (truthy m.1.1); [|done]. by rewrite <- app_assoc.
Qed.

Lemma collect_matches_raise completed matches e :
  Raise e ∈ completed → ∃ e', collect_matches completed matches = Raise e'.
Proof.
  revert matches. induction completed as [|f completed IH]; intros matches H.
  { by apply elem_of_nil in H. }
  apply elem_of_cons in H as [<-|H]; simpl; [by eexists|].
  destruct f as [m|e0]; simpl; [by apply IH|by eexists].
Qed.

(** The key is a float sum: [0.7 + 0.2] is 0.8999999999999999 and
    [0.8 + 0.1] is 0.9. Two matches with these scores have the same exact
    sum and still are not tied: [max] returns the second one, in whichever
    order the two are handed over. *)
Example float_key_separates_equal_sums :
  let m1 : match_t := (Some "u1", 7 # 10, 2 # 10)%Q in
  let m2 : match_t := (Some "u2", 8 # 10, 1 # 10)%Q in
  (m1.1.2 + m1.2 == m2.1.2 + m2.2)%Q
  ∧ (score m1 == 8106479329266892 # 9007199254740992)%Q
  ∧ (score m2 == 8106479329266893 # 9007199254740992)%Q
  ∧ (score m1 < score m2)%Q
  ∧ max_by_score m1 [m2] = m2
  ∧ max_by_score m2 [m1] = m2.
Proof. by vm_compute. Qed.

(** The same through [search_youtube_single_track]: the second candidate
    is returned in either hand-over order. *)
Example float_key_resolution :
  map (fun entry => search_single_track entry track_K 10 (7 # 10) (5 # 100))
      [entry_k1; entry_k2]
  = [Ok (Some "u1", 7 # 10, 1 # 5)%Q; Ok (Some "u2", 4 # 5, 1 # 10)%Q]
  ∧ search_youtube_single_track (search_returns [entry_k1; entry_k2]) [0; 1]
      track_K 5 10 (7 # 10) (5 # 100) = Ok (Some "u2", "klmno - abcdefghij")
  ∧ search_youtube_single_track (search_returns [entry_k1; entry_k2]) [1; 0]
      track_K 5 10 (7 # 10) (5 # 100) = Ok (Some "u2", "klmno - abcdefghij").
Proof. by vm_compute. Qed.

(** [max] returns the first entry among those of greatest key. *)
Lemma max_by_score_first l best rest i :
  l !! i = Some best →
  (∀ j x, j < i → l !! j = Some x → (score x < score best)%Q) →
  (∀ j x, l !! j = Some x → (score x <= score best)%Q) →
  ∃ i', (l ++ rest) !! i' = Some (max_by_score best rest)
        ∧ (∀ j x, j < i' → (l ++ rest) !! j = Some x →
                  (score x < score (max_by_score best rest))%Q)
        ∧ (∀ j x, (l ++ rest) !! j = Some x →
                  (score x <= score (max_by_score best rest))%Q).
Proof.
  revert l best i. induction rest as [|x rest IH]; intros l best i Hi Hlt Hle.
  { rewrite app_nil_r. exists i. simpl. eauto. }
  simpl. replace (l ++ x :: rest) with ((l ++ [x]) ++ rest)
    by by rewrite <- app_assoc.
  destruct (Qgtb (score x) (score best)) eqn:E.
  - apply Qgtb_true in E. apply (IH _ _ (length l)).
    + by rewrite lookup_app_r, Nat.sub_diag by done.
    + intros j y Hj Hy. rewrite lookup_app_l in Hy by done.
      eapply Qle_lt_trans; [by eapply Hle|done].
    + intros j y Hy. apply lookup_snoc_Some in Hy as [[_ Hy]|[_ <-]].
      * apply Qlt_le_weak. eapply Qle_lt_trans; [by eapply Hle|done].
      * apply Qle_refl.
  - apply Qgtb_false in E. apply (IH _ _ i).
    + rewrite lookup_app_l; [done|]. by apply lookup_lt_Some in Hi.
    + intros j y Hj Hy. apply (Hlt j); [done|].
      rewrite lookup_app_l in Hy; [done|]. apply lookup_lt_Some in Hi. lia.
    + intros j y Hy. apply lookup_snoc_Some in Hy as [[_ Hy]|[_ <-]];
        [by eapply Hle|done].
Qed.

Lemma accepted_filter_elem (l : list match_t) m :
  m ∈ List.filter accepted l ↔ m ∈ l ∧ accepted m = true.
Proof. rewrite !list_elem_of_In. apply filter_In. Qed.

Lemma search_youtube_no_error extract_info completion track max_results
    tol tt at_ entries results :
  extract_info (ytsearch max_results track) = Ok entries →
  map (fun entry => search_single_track entry track tol tt at_) entries
    = map Ok results →
  search_youtube_single_track extract_info completion track max_results
    tol tt at_ =
    match List.filter accepted (as_completed completion results) with
    | [] => Ok (None, full_title track)
    | m :: ms => Ok ((max_by_score m ms).1.1, full_title track)
    end.
Proof.
  intros Hs He. unfold search_youtube_single_track.
  fold (ytsearch max_results track). rewrite Hs, He.
  rewrite as_completed_map, collect_matches_ok. simpl.
  change (fun m : option string * Q * Q => truthy m.1.1) with accepted.
  match goal with
  | |- match ?l with _ => _ end = match ?l' with _ => _ end =>
      change l' with l; destruct l as [|m ms]; [done|]
  end.
  by destruct (max_by_score m ms) as [[??]?].
Qed.

(** C6, as the code has it. When the search succeeds and no evaluation
    raises, [search_youtube_single_track] returns the track's full title
    with: no url when no candidate was accepted; otherwise the url of an
    accepted match whose key, the float sum [title_score + artist_score],
    is greatest among all accepted matches, and among those of greatest key
    the one that [as_completed] handed over first. [completion] is that
    hand-over order; every evaluation is handed over once. *)
Theorem resolve_picks_first_handed_over_maximum
    (extract_info : string → outcome (list yt_result))
    (completion : list nat) (track : track_info) (max_results : nat)
    (tol tt at_ : Q) (entries : list yt_result) (results : list match_t)
    (Hsearch : extract_info (ytsearch max_results track) = Ok entries)
    (Heval : map (fun entry => search_single_track entry track tol tt at_)
                 entries = map Ok results)
    (Hperm : Permutation completion (seq 0 (length entries))) :
  let matches := List.filter accepted (as_completed completion results) in
  let resolve := search_youtube_single_track extract_info completion track
                   max_results tol tt at_ in
  ((∀ m, m ∈ results → accepted m = false) →
   resolve = Ok (None, full_title track))
  ∧ ((∃ m, m ∈ results ∧ accepted m = true) →
     ∃ i best,
       matches !! i = Some best
       ∧ resolve = Ok (best.1.1, full_title track)
       ∧ best ∈ results ∧ accepted best = true
       ∧ (∀ x, x ∈ results → accepted x = true → (score x <= score best)%Q)
       ∧ (∀ j x, j < i → matches !! j = Some x → (score x < score best)%Q)).
Proof.
  intros matches resolve. subst resolve.
  rewrite (search_youtube_no_error _ _ _ _ _ _ _ entries results) by done.
  fold matches.
  assert (length results = length entries) as Hlen.
  { apply (f_equal length) in Heval. by rewrite !length_map in Heval. }
  split.
  - intros Hnone. destruct matches as [|m ms] eqn:E; [done|].
    assert (m ∈ matches) as Hm by (rewrite E; by left).
    apply accepted_filter_elem in Hm as [Hm%as_completed_sub Ha].
    rewrite Hnone in Ha by done. done.
  - intros (m0 & Hm0 & Ha0).
    assert (m0 ∈ matches) as Hin.
    { apply accepted_filter_elem. split; [|done].
      apply as_completed_all; [by rewrite Hlen|done]. }
    destruct matches as [|m ms] eqn:E; [by apply elem_of_nil in Hin|].
    destruct (max_by_score_first [m] m ms 0) as (i & Hi & Hlt & Hle);
      [done|intros; lia| |].
    { intros j x Hx. apply list_lookup_singleton_Some in Hx as [_ <-].
      apply Qle_refl. }
    simpl in Hi, Hlt, Hle.
    assert (max_by_score m ms ∈ matches) as Hbest
      by (rewrite E; by eapply list_elem_of_lookup_2).
    apply accepted_filter_elem in Hbest as [Hb1%as_completed_sub Hb2].
    exists i, (max_by_score m ms). split_and!; try done.
    intros x Hx Hax.
    assert (x ∈ m :: ms) as [j Hj]%list_elem_of_lookup_1.
    { rewrite <- E. apply accepted_filter_elem. split; [|done].
      apply as_completed_all; [by rewrite Hlen|done]. }
    by eapply Hle.
Qed.

Lemma resolve_picks_first_handed_over_maximum_witness :
  search_youtube_single_track (search_returns [entry_u1; entry_u2]) [1; 0]
    track_X 5 10 (7 # 10) (5 # 100) = Ok (Some "u2", "A - X").
Proof.
  destruct (resolve_picks_first_handed_over_maximum
              (search_returns [entry_u1; entry_u2]) [1; 0] track_X 5
              10 (7 # 10) (5 # 100) [entry_u1; entry_u2]
              [(Some "u1", 1%Q, 1%Q); (Some "u2", 1%Q, 1%Q)])
    as [_ H].
  - reflexivity.
  - vm_compute. reflexivity.
  - apply perm_swap.
  - destruct H as (i & best & Hi & -> & _ & _ & _ & Hfirst).
    { exists (Some "u1", 1%Q, 1%Q). split; [by left|reflexivity]. }
    destruct i as [|[|i]]; simpl in Hi.
    + by injection Hi as <-.
    + exfalso. specialize (Hfirst 0 (Some "u2", 1%Q, 1%Q) ltac:(lia) eq_refl).
      injection Hi as <-. vm_compute in Hfirst. discriminate.
    + discriminate.
Defined.

(** The tie-break of C6 in the specification fails: two candidates with the
    same scores (both keys are the float 2.0), the evaluation of the second
    handed over first, and the url of the second one, not of the earlier
    search result, is returned. *)
Lemma tie_follows_hand_over_order :
  Permutation [1; 0] (seq 0 (length [entry_u1; entry_u2]))
  ∧ map (fun entry => search_single_track entry track_X 10 (7 # 10) (5 # 100))
        [entry_u1; entry_u2]
    = [Ok (Some "u1", 1%Q, 1%Q); Ok (Some "u2", 1%Q, 1%Q)]
  ∧ search_youtube_single_track (search_returns [entry_u1; entry_u2]) [1; 0]
      track_X 5 10 (7 # 10) (5 # 100) = Ok (Some "u2", "A - X")
  ∧ search_youtube_single_track (search_returns [entry_u1; entry_u2]) [1; 0]
      track_X 5 10 (7 # 10) (5 # 100) ≠ Ok (Some "u1", "A - X").
Proof.
  split; [apply perm_swap|]. split; [by vm_compute|].
  split; [by vm_compute|]. vm_compute. discriminate.
Qed.

(** ** Errors at the candidate and at the track (C1, C2) *)

Lemma append_nil_r s : s +:+ "" = s.
Proof.
  induction s as [|c s IH]; [done|].
  change (String c s +:+ "") with (String c (s +:+ "")). by rewrite IH.
Qed.

Lemma append_assoc s1 s2 s3 : (s1 +:+ s2) +:+ s3 = s1 +:+ (s2 +:+ s3).
Proof.
  induction s1 as [|c s1 IH]; [done|].
  change ((String c s1 +:+ s2) +:+ s3) with (String c ((s1 +:+ s2) +:+ s3)).
  by rewrite IH.
Qed.

Lemma split_max_absent sep cur s :
  sep ≠ "" → Py.contains sep s = false →
  Py.split_go sep (Some 1) 0 cur s = [cur +:+ s].
Proof.
  intros Hsep. revert cur.
  induction s as [|c s IH]; intros cur Hc; cbn [Py.split_go].
  { by rewrite append_nil_r. }
  cbn [Py.contains] in Hc. apply orb_false_iff in Hc as [-> Hc].
  rewrite IH by done. by rewrite append_assoc.
Qed.

Lemma process_yt_title_no_separator yt_title :
  Py.contains " - " yt_title = false →
  process_yt_title yt_title = Raise not_enough.
Proof.
  intros H. unfold process_yt_title, Py.split_max.
  by rewrite split_max_absent.
Qed.

(** A candidate with no structured artist whose title has no [" - "]:
    outside the duration tolerance it is rejected by the gate before its
    title is looked at; inside the tolerance its evaluation fails with the
    unpacking [ValueError]. Nothing catches that error per candidate: with
    such a candidate among the search results, in whatever order the
    evaluations are handed over, [search_youtube_single_track] raises and
    gives no url for the track, whatever the other candidates are. *)
Lemma malformed_title_raises (entry : yt_result) (track : track_info)
    (tol tt at_ : Q)
    (Hartist : artist entry = None)
    (Htitle : Py.contains " - " (title entry) = false) :
  ((tol < duration_diff entry track)%Q →
   search_single_track entry track tol tt at_ = Ok (None, 0%Q, 0%Q))
  ∧ ((duration_diff entry track <= tol)%Q →
     search_single_track entry track tol tt at_ = Raise not_enough
     ∧ ∀ extract_info completion max_results entries,
         extract_info (ytsearch max_results track) = Ok entries →
         entry ∈ entries →
         Permutation completion (seq 0 (length entries)) →
         ∃ e, search_youtube_single_track extract_info completion track
                max_results tol tt at_ = Raise e).
Proof.
  split; [apply search_single_track_gated|].
  intros Hd.
  assert (search_single_track entry track tol tt at_ = Raise not_enough) as He.
  { apply search_single_track_raises; [done|].
    unfold comparison_strings. rewrite Hartist.
    by apply process_yt_title_no_separator. }
  split; [done|].
  intros extract_info completion max_results entries Hs Hin Hp.
  unfold search_youtube_single_track. fold (ytsearch max_results track).
  rewrite Hs.
  destruct (collect_matches_raise
              (as_completed completion
                 (map (fun entry => search_single_track entry track tol tt at_)
                      entries)) [] not_enough) as [e' ->]; [|by eexists].
  apply as_completed_all; [by rewrite length_map|].
  apply list_elem_of_In. rewrite <- He.
  apply (in_map (fun entry0 => search_single_track entry0 track tol tt at_)
                entries entry).
  by apply list_elem_of_In.
Qed.

Lemma malformed_title_raises_witness :
  search_single_track entry_malformed track_X 10 (7 # 10) (5 # 100)
    = Raise not_enough
  ∧ search_single_track entry_malformed_far track_X 10 (7 # 10) (5 # 100)
    = Ok (None, 0%Q, 0%Q).
Proof.
  split.
  - destruct (malformed_title_raises entry_malformed track_X
                10 (7 # 10) (5 # 100) eq_refl eq_refl) as [_ H].
    apply H. vm_compute. discriminate.
  - destruct (malformed_title_raises entry_malformed_far track_X
                10 (7 # 10) (5 # 100) eq_refl eq_refl) as [H _].
    apply H. vm_compute. reflexivity.
Defined.

(** The error is not caught by [download_track] either: the call raises
    and the failure list is left as it was. *)
Lemma malformed_title_escapes_download_track extract_info download dir
    completion track failed_tracks entries entry :
  artist entry = None →
  Py.contains " - " (title entry) = false →
  (duration_diff entry track <= 10)%Q →
  extract_info (ytsearch 5 track) = Ok entries →
  entry ∈ entries →
  Permutation completion (seq 0 (length entries)) →
  ∃ e, download_track extract_info download dir completion track failed_tracks
       = (Raise e, failed_tracks).
Proof.
  intros Ha Ht Hd Hs Hin Hp.
  destruct (malformed_title_raises entry track 10 (7 # 10) (5 # 100) Ha Ht)
    as [_ H].
  destruct (H Hd) as [_ H'].
  destruct (H' extract_info completion 5 entries Hs Hin Hp) as [e He].
  exists e. unfold download_track, search_youtube_default. by rewrite He.
Qed.

(** C1 at a malformed title. The search for "A - X" returns two candidates
    within the duration tolerance, neither with a structured artist: one
    titled "X", without [" - "], and one titled "A - X", which matches the
    track perfectly. Evaluating the first raises the unpacking
    [ValueError]. The candidate is not set aside: in either hand-over
    order the resolution of the track raises that error and the perfect
    candidate is lost; [download_track] lets the error through without
    recording the track; and the script ends with the error, without the
    report that a second track, whose search found nothing, would have had.
    With the perfect candidate alone, the same run finds the track and
    prints the report. *)
Theorem malformed_title_aborts_the_run :
  let query := "ytsearch5:A - X autogenerated" in
  let extract_info := search_returns_for query [entry_malformed; entry_u1] in
  search_single_track entry_malformed track_X 10 (7 # 10) (5 # 100)
    = Raise not_enough
  ∧ search_single_track entry_u1 track_X 10 (7 # 10) (5 # 100)
    = Ok (Some "u1", 1%Q, 1%Q)
  ∧ search_youtube_single_track extract_info [0; 1] track_X 5 10 (7 # 10)
      (5 # 100) = Raise not_enough
  ∧ search_youtube_single_track extract_info [1; 0] track_X 5 10 (7 # 10)
      (5 # 100) = Raise not_enough
  ∧ download_track extract_info download_ok "dir" [1; 0] track_X []
    = (Raise not_enough, [])
  ∧ main extract_info download_ok "dir" 1 [[1; 0]; []] [liked_X; liked_Y]
    = Raise not_enough
  ∧ main (search_returns_for query [entry_u1]) download_ok "dir" 1
      [[0]; []] [liked_X; liked_Y]
    = Ok [found_line "A - X" "u1"; report_header; ">>> B - Y"].
Proof. by vm_compute. Qed.

Lemma download_track_search_error extract_info download dir completion track
    failed_tracks e :
  extract_info (ytsearch 5 track) = Raise e →
  download_track extract_info download dir completion track failed_tracks
  = (Raise (RuntimeError ("Error searching YouTube: " +:+ exn_str e)),
     failed_tracks).
Proof.
  intros H. unfold download_track, search_youtube_default,
    search_youtube_single_track. fold (ytsearch 5 track). by rewrite H.
Qed.

Lemma download_track_download_error extract_info download dir completion track
    failed_tracks url e :
  search_youtube_default extract_info completion track
    = Ok (Some url, full_title track) →
  download (path_join dir (Py.replace ":" "" (full_title track))) url
    = Raise e →
  download_track extract_info download dir completion track failed_tracks
  = (Ok tt, failed_tracks ++ [full_title track]).
Proof. intros H1 H2. unfold download_track. by rewrite H1, H2. Qed.

(** C2 at a failing search. The search for "A - X" raises; the search for
    "B - Y" returns no candidate. [download_track] lets the [RuntimeError]
    of the first track through and leaves the failure list as it was, where
    it records the second track (and a track whose download raised). The
    script then ends with that error: no report is printed, for either
    track. *)
Theorem search_error_escapes_download_track :
  let extract_info := search_fails_for "ytsearch5:A - X autogenerated" in
  download_track extract_info download_ok "dir" [] track_X []
    = (Raise (RuntimeError "Error searching YouTube: network down"), [])
  ∧ main extract_info download_ok "dir" 1 [[]; []] [liked_X; liked_Y]
    = Raise (RuntimeError "Error searching YouTube: network down")
  ∧ main extract_info download_ok "dir" 1 [[]] [liked_Y]
    = Ok ["The following tracks failed to download:"; ">>> B - Y"].
Proof. by vm_compute. Qed.

(** The end-to-end scenario: the candidate 4 seconds off is returned, the
    one 100 seconds off is gated out, in either hand-over order. *)
Example end_to_end :
  let near := {| duration := 104; title := "A - X"; artist := None;
                 webpage_url := "u1" |} in
  let far := {| duration := 200; title := "A - X"; artist := None;
                webpage_url := "u2" |} in
  search_youtube_single_track (search_returns [near; far]) [0; 1] track_X
    5 10 (7 # 10) (5 # 100) = Ok (Some "u1", "A - X")
  ∧ search_youtube_single_track (search_returns [near; far]) [1; 0] track_X
      5 10 (7 # 10) (5 # 100) = Ok (Some "u1", "A - X").
Proof. by vm_compute. Qed.

(** * Further properties of the code *)

(** ** The catalog normalizer *)

Lemma mem_elem x l : Py.mem x l = true ↔ x ∈ l.
Proof.
  unfold Py.mem. rewrite existsb_exists. split.
  - intros (y & Hy%list_elem_of_In & ->%String.eqb_eq). done.
  - intros H. exists x. split; [by apply list_elem_of_In|apply String.eqb_refl].
Qed.

Lemma append_new_spec song_artists artists :
  ∃ added,
    append_new song_artists artists = song_artists ++ added
    ∧ NoDup added
    ∧ (∀ x, x ∈ added → x ∈ artists ∧ x ∉ song_artists)
    ∧ (∀ x, x ∈ artists → x ∈ song_artists ++ added).
Proof.
  unfold append_new. revert song_artists.
  induction artists as [|a artists IH]; intros sa; simpl.
  { exists []. rewrite app_nil_r. split_and!; [done|constructor| |].
    - by intros ? ?%elem_of_nil.
    - by intros ? ?%elem_of_nil. }
  destruct (Py.mem a sa) eqn:E.
  - apply mem_elem in E. destruct (IH sa) as (added & -> & Hnd & Hin & Hall).
    exists added. split_and!; try done.
    + intros x Hx. destruct (Hin x Hx). split; [by right|done].
    + intros x [->|Hx]%elem_of_cons; [apply elem_of_app; by left|by apply Hall].
  - assert (a ∉ sa) as Ha by (rewrite <- mem_elem; congruence).
    destruct (IH (sa ++ [a])) as (added & -> & Hnd & Hin & Hall).
    exists (a :: added). rewrite <- app_assoc. split_and!; try done.
    + constructor; [|done]. intros Hx. destruct (Hin a Hx) as [_ Hn].
      apply Hn, elem_of_app. right. by left.
    + intros x [->|Hx]%elem_of_cons; [split; [by left|done]|].
      destruct (Hin x Hx) as [? Hn]. split; [by right|].
      intros ?. apply Hn, elem_of_app. by left.
    + intros x [->|Hx]%elem_of_cons.
      * apply elem_of_app. right. by left.
      * specialize (Hall x Hx). by rewrite <- app_assoc in Hall.
Qed.

Lemma process_spotify_song_name_inv song_artists song_title arts t :
  process_spotify_song_name song_artists song_title = Ok (arts, t) →
  ∃ artists t0, arts = append_new song_artists artists ∧ t = Py.strip t0.
Proof.
  unfold process_spotify_song_name.
  destruct (spotify_loop _ _ _ _) as [[title artists]|e];
    [|rewrite raise_bind; intros [=]].
  rewrite ok_bind. cbv beta iota zeta.
  destruct (match artists with [] => Some song_title | _ => title end)
    as [t0|]; [|intros [=]].
  intros [= <- <-]. eauto.
Qed.

(** X1. Artists are only ever added at the end. The artists returned by
    [process_spotify_song_name] are the ones passed in, in their order,
    followed by the added names; an added name was not among the artists
    passed in, and no name is added twice. So distinct artists stay
    distinct. *)
Theorem catalog_artists_extended (song_artists : list string)
    (song_title : string) (arts : list string) (t : string)
    (Hok : process_spotify_song_name song_artists song_title = Ok (arts, t)) :
  ∃ added,
    arts = song_artists ++ added
    ∧ NoDup added
    ∧ (∀ x, x ∈ added → x ∉ song_artists)
    ∧ (NoDup song_artists → NoDup arts).
Proof.
  apply process_spotify_song_name_inv in Hok as (artists & t0 & -> & _).
  destruct (append_new_spec song_artists artists)
    as (added & -> & Hnd & Hin & _).
  exists added. split_and!; [done|done|by intros x [_ ?]%Hin|].
  intros Hsa. apply NoDup_app. split_and!; [done| |done].
  intros x Hx Hx'. by destruct (Hin x Hx').
Qed.

Lemma catalog_artists_extended_witness :
  ∃ added, ["A"; "B"] = ["A"] ++ added ∧ NoDup added.
Proof.
  destruct (catalog_artists_extended ["A"] "Song feat. B, A" ["A"; "B"] "Song"
              eq_refl) as (added & H & Hnd & _).
  exists added. split; [exact H|exact Hnd].
Defined.

Lemma matching_nil_iff s :
  matching s = [] ↔ ∀ m, m ∈ feat_strings → Py.contains m s = false.
Proof.
  unfold matching. split.
  - intros H m Hm. destruct (Py.contains m s) eqn:E; [|done].
    assert (In m (List.filter (fun m => Py.contains m s) feat_strings)) as Hin
      by (apply filter_In; split; [by apply list_elem_of_In|done]).
    rewrite H in Hin. done.
  - intros H. induction feat_strings as [|m ms IH]; simpl; [done|].
    rewrite H by by left. apply IH. intros; apply H. by right.
Qed.

Lemma process_spotify_song_name_once song_artists song_title :
  (∀ m, m ∈ feat_strings → Py.count m song_title ≤ 1) →
  process_spotify_song_name song_artists song_title =
    Ok (append_new song_artists
          (concat (map (fun m => parse_featured (right_of m song_title))
                       (matching song_title))),
        Py.strip (match last (matching song_title) with
                  | Some m => left_of m song_title
                  | None => song_title
                  end)).
Proof.
  intros Honce. unfold process_spotify_song_name.
  rewrite spotify_loop_once; [|apply feat_strings_nonempty|done].
  rewrite ok_bind. fold (matching song_title). simpl.
  destruct (matching song_title) as [|m ms]; [done|].
  rewrite last_cons. simpl.
  destruct (parse_featured (right_of m song_title)) eqn:Hp;
    [by apply parse_featured_nonempty in Hp|].
  simpl. by destruct (last ms).
Qed.

(** X2. A title that holds none of the four markers leaves the artists as
    they are and comes back trimmed of its leading and trailing white
    space. *)
Theorem catalog_plain_title (song_artists : list string) (song_title : string)
    (Hplain : matching song_title = []) :
  process_spotify_song_name song_artists song_title
  = Ok (song_artists, Py.strip song_title).
Proof.
  rewrite process_spotify_song_name_once.
  - by rewrite Hplain.
  - intros m Hm. rewrite contains_false_count;
      [lia|by apply feat_strings_nonempty|].
    by apply matching_nil_iff.
Qed.

Lemma catalog_plain_title_witness :
  process_spotify_song_name ["A"; "B"] "  Song (Live)  "
  = Ok (["A"; "B"], "Song (Live)").
Proof. apply (catalog_plain_title ["A"; "B"] "  Song (Live)  "). reflexivity. Defined.

(** X3. [process_spotify_song_name] fails in one way only: with the
    [ValueError] of unpacking too many pieces, and exactly when one of the
    markers occurs at two or more positions of the title. In particular its
    local [title] is always bound when it is read. *)
Theorem catalog_only_error (song_artists : list string) (song_title : string) :
  (process_spotify_song_name song_artists song_title = Raise too_many
   ∧ ∃ m, m ∈ feat_strings ∧ 2 ≤ occurrences m song_title)
  ∨ ((∃ r, process_spotify_song_name song_artists song_title = Ok r)
     ∧ ∀ m, m ∈ feat_strings → occurrences m song_title ≤ 1).
Proof.
  destruct (decide (Exists (fun m => 2 ≤ Py.count m song_title) feat_strings))
    as [Hex|Hno].
  - left. apply Exists_exists in Hex as (m & Hm & Hc).
    split; [|exists m; by rewrite <- marker_count].
    unfold process_spotify_song_name.
    rewrite spotify_loop_many; [done|apply feat_strings_nonempty|eauto].
  - right.
    assert (∀ m, m ∈ feat_strings → Py.count m song_title ≤ 1) as Honce.
    { intros m Hm. destruct (decide (Py.count m song_title ≤ 1)); [done|].
      exfalso. apply Hno, Exists_exists. exists m. split; [done|lia]. }
    split.
    + eexists. by apply process_spotify_song_name_once.
    + intros m Hm. rewrite <- marker_count by done. by apply Honce.
Qed.

Lemma lstrip_head s : head_not_space (Py.lstrip s).
Proof.
  induction s as [|c s IH]; simpl; [done|].
  destruct (Py.isspace c) eqn:E; [done|]. by simpl.
Qed.

Lemma lstrip_id s : head_not_space s → Py.lstrip s = s.
Proof. destruct s as [|c s]; simpl; [done|]. by intros ->. Qed.

Lemma rstrip_head s : head_not_space s → head_not_space (Py.rstrip s).
Proof.
  destruct s as [|c s]; simpl; [done|]. intros H.
  destruct (Py.rstrip s); [by rewrite H|done].
Qed.

Lemma rstrip_idempotent s : Py.rstrip (Py.rstrip s) = Py.rstrip s.
Proof.
  induction s as [|c s IH]; [done|].
  cbn [Py.rstrip]. destruct (Py.rstrip s) as [|d r] eqn:E.
  - destruct (Py.isspace c) eqn:Ec; [done|]. simpl. by rewrite Ec.
  - change (Py.rstrip (String c (String d r)))
      with (match Py.rstrip (String d r) with
            | EmptyString =>
                if Py.isspace c then EmptyString else String c EmptyString
            | String x y => String c (String x y)
            end).
    by rewrite IH.
Qed.

Lemma strip_idempotent s : Py.strip (Py.strip s) = Py.strip s.
Proof.
  unfold Py.strip.
  rewrite (lstrip_id (Py.rstrip (Py.lstrip s)))
    by apply rstrip_head, lstrip_head.
  apply rstrip_idempotent.
Qed.

(** X4. The title returned by [process_spotify_song_name] is always
    trimmed: stripping it again changes nothing, whichever marker cut
    it. *)
Theorem catalog_title_trimmed (song_artists : list string)
    (song_title : string) (arts : list string) (t : string)
    (Hok : process_spotify_song_name song_artists song_title = Ok (arts, t)) :
  Py.strip t = t.
Proof.
  apply process_spotify_song_name_inv in Hok as (_ & t0 & _ & ->).
  apply strip_idempotent.
Qed.

Lemma catalog_title_trimmed_witness : Py.strip "Song" = "Song".
Proof.
  apply (catalog_title_trimmed ["A"] "Song  (feat. B)" ["A"; "B"] "Song").
  reflexivity.
Defined.

(** ** The search-title normalizer *)

Lemma append_nil_l s : "" +:+ s = s.
Proof. done. Qed.

Lemma append_cons c s1 s2 : String c s1 +:+ s2 = String c (s1 +:+ s2).
Proof. done. Qed.

Lemma split_go_exhausted sep pre rest cur :
  Py.split_go sep (Some 0) (String.length pre) cur (pre +:+ rest)
  = [cur +:+ rest].
Proof.
  induction pre as [|a pre IH].
  - rewrite append_nil_l. destruct rest; [|done].
    by rewrite append_nil_r.
  - rewrite append_cons. apply IH.
Qed.

Lemma prefix_split sep s :
  String.prefix sep s = true → ∃ rest, s = sep +:+ rest.
Proof.
  revert s. induction sep as [|h t IH]; intros s H; [by exists s|].
  destruct s as [|c s]; [done|]. rewrite prefix_cons in H.
  destruct (ascii_dec h c) as [->|]; [|done].
  destruct (IH s H) as [rest ->]. by exists rest.
Qed.

Lemma prefix_app sep x y :
  String.prefix sep x = true → String.prefix sep (x +:+ y) = true.
Proof.
  revert x. induction sep as [|h t IH]; intros x H; [by destruct (x +:+ y)|].
  destruct x as [|c x]; [done|]. rewrite append_cons, prefix_cons in *.
  destruct (ascii_dec h c); [by apply IH|done].
Qed.

Lemma split_max_present sep cur s :
  sep ≠ "" → Py.contains sep s = true →
  ∃ l r, Py.split_go sep (Some 1) 0 cur s = [cur +:+ l; r]
         ∧ s = l +:+ sep +:+ r ∧ Py.contains sep l = false.
Proof.
  intros Hsep. revert cur. induction s as [|c s IH]; intros cur Hc.
  { cbn [Py.contains] in Hc. by rewrite prefix_nonempty_nil in Hc. }
  cbn [Py.split_go]. cbn [Py.contains] in Hc.
  destruct (String.prefix sep (String c s)) eqn:E.
  - destruct (prefix_split _ _ E) as [rest Hrest].
    destruct sep as [|h t]; [done|]. rewrite append_cons in Hrest.
    injection Hrest as -> ->.
    exists "", rest. split_and!.
    + cbn [fmap option_fmap option_map Nat.pred String.length].
      replace (S (String.length t) - 1) with (String.length t) by lia.
      rewrite split_go_exhausted. by rewrite append_nil_r.
    + done.
    + cbn [Py.contains]. by rewrite prefix_nonempty_nil.
  - destruct (IH (cur +:+ String c "") Hc) as (l & r & -> & -> & Hl).
    exists (String c l), r. split_and!.
    + by rewrite append_assoc.
    + done.
    + cbn [Py.contains]. rewrite Hl, orb_false_r.
      destruct (String.prefix sep (String c l)) eqn:E'; [|done].
      apply (prefix_app _ _ (sep +:+ r)) in E'.
      rewrite append_cons in E'. congruence.
Qed.

Lemma yt_loop_cons m ms l r la ra t :
  yt_loop (m :: ms) l r la ra t =
    (la' ←
       (if Py.contains m l then
          '(main_artist, featured_artists) ← unpack2 (Py.split m l);
          Ok (la ++ ([Py.strip main_artist] ++ parse_featured featured_artists))
        else Ok la);
     '(t', ra') ←
       (if Py.contains m r then
          '(t0, featured_artists) ← unpack2 (Py.split m r);
          Ok (Some t0, ra ++ parse_featured featured_artists)
        else Ok (t, ra));
     yt_loop ms l r la' ra' t').
Proof. done. Qed.

Lemma yt_loop_once ms l r la ra t :
  (∀ m, m ∈ ms → m ≠ "") →
  (∀ m, m ∈ ms → Py.count m l ≤ 1 ∧ Py.count m r ≤ 1) →
  yt_loop ms l r la ra t =
    Ok (la ++ concat (map (fun m => Py.strip (left_of m l)
                                    :: parse_featured (right_of m l))
                          (List.filter (fun m => Py.contains m l) ms)),
        ra ++ concat (map (fun m => parse_featured (right_of m r))
                          (List.filter (fun m => Py.contains m r) ms)),
        match last (List.filter (fun m => Py.contains m r) ms) with
        | Some m => Some (left_of m r)
        | None => t
        end).
Proof.
  revert la ra t. induction ms as [|m ms IH]; intros la ra t Hne Hc.
  { simpl. by rewrite !app_nil_r. }
  assert (∀ m0, m0 ∈ ms → m0 ≠ "") as Hne' by (intros; apply Hne; by right).
  assert (∀ m0, m0 ∈ ms → Py.count m0 l ≤ 1 ∧ Py.count m0 r ≤ 1) as Hc'
    by (intros; apply Hc; by right).
  assert (m ≠ "") as Hm by (apply Hne; by left).
  destruct (Hc m ltac:(by left)) as [Hl Hr].
  rewrite yt_loop_cons. cbn [List.filter].
  destruct (marker_cases m l Hm) as [[-> L]|[(-> & L & ->)|(-> & L & _)]];
    [| |lia];
    (destruct (marker_cases m r Hm) as [[-> R]|[(-> & R & ->)|(-> & R & _)]];
     [| |lia]);
    rewrite ?ok_bind; cbv beta iota; rewrite ?ok_bind; cbv beta iota;
    rewrite IH by done; cbn [map concat]; rewrite ?last_cons;
    rewrite <- ?app_assoc; try done;
    by destruct (last (List.filter _ ms)).
Qed.

Lemma process_yt_title_once yt_title l r :
  Py.split_max " - " 1 yt_title = [l; r] →
  (∀ m, m ∈ feat_strings → Py.count m l ≤ 1 ∧ Py.count m r ≤ 1) →
  process_yt_title yt_title = Ok (yt_artists l r, yt_title_of r).
Proof.
  intros Hs Honce. unfold process_yt_title. rewrite Hs.
  change (unpack2 [l; r]) with (Ok (l, r)). rewrite ok_bind. cbv beta iota.
  rewrite yt_loop_once; [|apply feat_strings_nonempty|done].
  rewrite ok_bind. cbv beta iota zeta.
  unfold yt_artists, yt_title_of. fold (matching l) (matching r).
  f_equal. f_equal.
  - rewrite app_nil_l. f_equal. by destruct (matching l).
  - destruct (last (matching r)) as [m|]; [|done].
    simpl. by destruct (left_of m r).
Qed.

(** X5. With the title cut at its first [" - "] into a left and a right
    side, and each marker occurring at most once on either side,
    [process_yt_title] returns: as artists, the trimmed left side when it
    holds no marker, otherwise for each marker of the left side the trimmed
    part before it and the names after it, followed by the names after each
    marker of the right side; as title, the part of the right side before
    its last marker, untrimmed, or the trimmed right side when that part is
    empty or there is no marker. *)
Theorem search_title_parsed (yt_title l r : string)
    (Hsplit : Py.split_max " - " 1 yt_title = [l; r])
    (Honce : ∀ m, In m feat_strings →
                  occurrences m l ≤ 1 ∧ occurrences m r ≤ 1) :
  process_yt_title yt_title = Ok (yt_artists l r, yt_title_of r).
Proof.
  apply process_yt_title_once; [done|].
  intros m Hm. rewrite !marker_count by done. by apply Honce, list_elem_of_In.
Qed.

Lemma search_title_parsed_witness :
  process_yt_title "A & B (feat. C, D) - Song ft. E - Live"
  = Ok (["A & B"; "C"; "D"; "E - Live"], "Song").
Proof.
  rewrite (search_title_parsed "A & B (feat. C, D) - Song ft. E - Live"
             "A & B (feat. C, D)" "Song ft. E - Live").
  - reflexivity.
  - reflexivity.
  - intros m [<-|[<-|[<-|[<-|[]]]]]; vm_compute; lia.
Defined.

Lemma process_yt_title_cases (yt_title : string) :
  (Py.contains " - " yt_title = false
   ∧ process_yt_title yt_title = Raise not_enough)
  ∨ (∃ l r,
       yt_title = l +:+ " - " +:+ r ∧ Py.contains " - " l = false
       ∧ ((process_yt_title yt_title = Raise too_many
           ∧ ∃ m, m ∈ feat_strings
                  ∧ (2 ≤ occurrences m l ∨ 2 ≤ occurrences m r))
          ∨ (process_yt_title yt_title = Ok (yt_artists l r, yt_title_of r)
             ∧ ∀ m, m ∈ feat_strings →
                    occurrences m l ≤ 1 ∧ occurrences m r ≤ 1))).
Proof.
  destruct (Py.contains " - " yt_title) eqn:Hc.
  - right.
    destruct (split_max_present " - " "" yt_title ltac:(done) Hc)
      as (l & r & Hs & -> & Hl).
    rewrite append_nil_l in Hs. exists l, r. split_and!; [done|done|].
    destruct (decide (Exists (fun m => 2 ≤ Py.count m l ∨ 2 ≤ Py.count m r)
                             feat_strings)) as [Hex|Hno].
    + left. apply Exists_exists in Hex as (m & Hm & Hm2). split.
      * unfold process_yt_title, Py.split_max. rewrite Hs.
        change (unpack2 [l; r]) with (Ok (l, r)). rewrite ok_bind.
        cbv beta iota.
        rewrite yt_loop_many; [done|apply feat_strings_nonempty|eauto].
      * exists m. by rewrite <- !marker_count.
    + right.
      assert (∀ m, m ∈ feat_strings → Py.count m l ≤ 1 ∧ Py.count m r ≤ 1)
        as Honce.
      { intros m Hm.
        destruct (decide (Py.count m l ≤ 1 ∧ Py.count m r ≤ 1)); [done|].
        exfalso. apply Hno, Exists_exists. exists m. split; [done|lia]. }
      split; [by apply process_yt_title_once|].
      intros m Hm. rewrite <- !marker_count by done. by apply Honce.
  - left. split; [done|]. by apply process_yt_title_no_separator.
Qed.


Lemma process_yt_title_raises yt_title e :
  process_yt_title yt_title = Raise e → e = not_enough ∨ e = too_many.
Proof.
  intros H.
  destruct (process_yt_title_cases yt_title)
    as [[_ H']|(l & r & _ & _ & [[H' _]|[H' _]])];
    rewrite H' in H; naive_solver.
Qed.

(** ** Evaluating one candidate *)

Lemma search_single_track_cases entry track tol tt at_ :
  ((tol < duration_diff entry track)%Q
   ∧ search_single_track entry track tol tt at_ = Ok (None, 0%Q, 0%Q))
  ∨ ((duration_diff entry track <= tol)%Q
     ∧ ∃ e, comparison_strings entry = Raise e
            ∧ search_single_track entry track tol tt at_ = Raise e)
  ∨ ((duration_diff entry track <= tol)%Q
     ∧ ∃ ar t,
         comparison_strings entry = Ok (ar, t)
         ∧ search_single_track entry track tol tt at_ =
             let title_similarity := similarity_ratio t (song_name track) in
             let artist_similarity :=
               similarity_ratio (Py.join ", " ar)
                                (Py.join ", " (artists track)) in
             if Qgtb tt title_similarity || Qgtb at_ artist_similarity
             then Ok (None, title_similarity, artist_similarity)
             else Ok (Some (webpage_url entry), title_similarity,
                      artist_similarity)).
Proof.
  destruct (Qlt_le_dec tol (duration_diff entry track)) as [Hgt|Hle].
  - left. split; [done|]. by apply search_single_track_gated.
  - right. destruct (comparison_strings entry) as [[ar t]|e] eqn:Hc.
    + right. split; [done|]. exists ar, t. split; [done|].
      by apply search_single_track_scored.
    + left. split; [done|]. exists e. split; [done|].
      by apply search_single_track_raises.
Qed.

(** X7. Whatever [search_single_track] returns, its two scores are ratios
    between 0 and 1. *)
Theorem evaluation_scores_in_range (entry : yt_result) (track : track_info)
    (tol tt at_ : Q) (url : option string) (title_score artist_score : Q)
    (Hret : search_single_track entry track tol tt at_
            = Ok (url, title_score, artist_score)) :
  (0 <= title_score)%Q ∧ (title_score <= 1)%Q
  ∧ (0 <= artist_score)%Q ∧ (artist_score <= 1)%Q.
Proof.
  destruct (search_single_track_cases entry track tol tt at_)
    as [[_ H]|[(_ & e & _ & H)|(_ & ar & t & _ & H)]];
    rewrite H in Hret; [by injection Hret as <- <- <-|done|].
  simpl in Hret.
  destruct (similarity_ratio_bounds t (song_name track)).
  destruct (similarity_ratio_bounds (Py.join ", " ar)
              (Py.join ", " (artists track))).
  by destruct (_ || _); injection Hret as <- <- <-.
Qed.

Lemma evaluation_scores_in_range_witness :
  (0 <= 2 # 3)%Q ∧ (2 # 3 <= 1)%Q ∧ (0 <= 1)%Q ∧ (1 <= 1)%Q.
Proof.
  apply (evaluation_scores_in_range weak_title_entry track_X 10 (7 # 10)
           (5 # 100) None).
  vm_compute. reflexivity.
Defined.

Lemma search_single_track_accepts (entry : yt_result) (track : track_info)
    (tol tt at_ : Q) (url : string) (title_score artist_score : Q)
    (Hret : search_single_track entry track tol tt at_
            = Ok (Some url, title_score, artist_score)) :
  url = webpage_url entry
  ∧ (duration_diff entry track <= tol)%Q
  ∧ (tt <= title_score)%Q ∧ (at_ <= artist_score)%Q
  ∧ ∃ ar t,
      comparison_strings entry = Ok (ar, t)
      ∧ title_score = similarity_ratio t (song_name track)
      ∧ artist_score = similarity_ratio (Py.join ", " ar)
                                        (Py.join ", " (artists track)).
Proof.
  destruct (search_single_track_cases entry track tol tt at_)
    as [[_ H]|[(_ & e & _ & H)|(Hd & ar & t & Hc & H)]];
    rewrite H in Hret; [done|done|].
  simpl in Hret. destruct (_ || _) eqn:E; [done|].
  injection Hret as <- <- <-.
  apply orb_false_iff in E as [E1%Qgtb_false E2%Qgtb_false].
  split_and!; try done. by exists ar, t.
Qed.

(** X8. A candidate is accepted only on its merits: when
    [search_single_track] returns a url, it is the candidate's own
    [webpage_url], the candidate's duration is within the tolerance of the
    track's, and the two scores, which are the similarity of the compared
    titles and of the joined artists, reach their thresholds. *)
Theorem acceptance_sound (entry : yt_result) (track : track_info)
    (tol tt at_ : Q) (url : string) (title_score artist_score : Q)
    (Hret : search_single_track entry track tol tt at_
            = Ok (Some url, title_score, artist_score)) :
  url = webpage_url entry
  ∧ (duration_diff entry track <= tol)%Q
  ∧ (tt <= title_score)%Q ∧ (at_ <= artist_score)%Q
  ∧ ∃ ar t,
      comparison_strings entry = Ok (ar, t)
      ∧ title_score = similarity_ratio t (song_name track)
      ∧ artist_score = similarity_ratio (Py.join ", " ar)
                                        (Py.join ", " (artists track)).
Proof. by eapply search_single_track_accepts. Qed.

Lemma acceptance_sound_witness :
  "u1" = webpage_url entry_u1 ∧ (duration_diff entry_u1 track_X <= 10)%Q.
Proof.
  destruct (acceptance_sound entry_u1 track_X 10 (7 # 10) (5 # 100) "u1" 1 1)
    as (H1 & H2 & _).
  - vm_compute. reflexivity.
  - split; [exact H1|exact H2].
Defined.

Lemma search_single_track_raise_inv (entry : yt_result) (track : track_info)
    (tol tt at_ : Q) (e : exn)
    (Hraise : search_single_track entry track tol tt at_ = Raise e) :
  artist entry = None
  ∧ (duration_diff entry track <= tol)%Q
  ∧ process_yt_title (title entry) = Raise e
  ∧ (e = not_enough ∨ e = too_many).
Proof.
  destruct (search_single_track_cases entry track tol tt at_)
    as [[_ H]|[(Hd & e' & Hc & H)|(_ & ar & t & _ & H)]];
    rewrite H in Hraise; [done| |simpl in Hraise; by destruct (_ || _)].
  injection Hraise as ->. unfold comparison_strings in Hc.
  destruct (artist entry); [done|].
  split_and!; try done. by eapply process_yt_title_raises.
Qed.

(** X9. The only way [search_single_track] fails: the candidate is within
    the duration tolerance, carries no structured artist, and its title
    cannot be parsed; the error is then the [ValueError] of unpacking one
    piece (no [" - "]) or too many (a repeated marker). A candidate with a
    structured artist, or outside the tolerance, is always evaluated. *)
Theorem evaluation_errors (entry : yt_result) (track : track_info)
    (tol tt at_ : Q) (e : exn)
    (Hraise : search_single_track entry track tol tt at_ = Raise e) :
  artist entry = None
  ∧ (duration_diff entry track <= tol)%Q
  ∧ process_yt_title (title entry) = Raise e
  ∧ (e = not_enough ∨ e = too_many).
Proof. by eapply search_single_track_raise_inv. Qed.

Lemma evaluation_errors_witness :
  artist entry_malformed = None
  ∧ process_yt_title (title entry_malformed) = Raise not_enough.
Proof.
  destruct (evaluation_errors entry_malformed track_X 10 (7 # 10) (5 # 100)
              not_enough) as (H1 & _ & H3 & _).
  - vm_compute. reflexivity.
  - split; [exact H1|exact H3].
Defined.

(** ** The similarity ratio, continued *)

Lemma length_lower s : String.length (Py.lower s) = String.length s.
Proof. induction s as [|c s IH]; simpl; [done|]. by rewrite IH. Qed.

Lemma length_list_ascii s :
  length (list_ascii_of_string s) = String.length s.
Proof. induction s as [|c s IH]; simpl; [done|]. by rewrite IH. Qed.

Lemma similarity_ratio_lengths s1 s2 :
  (similarity_ratio s1 s2
   * inject_Z (Z.of_nat (String.length s1 + String.length s2))
   <= 2 * inject_Z (Z.of_nat (String.length s1 `min` String.length s2)))%Q.
Proof.
  unfold similarity_ratio, difflib.ratio.
  set (sm := difflib.new _ _).
  pose proof (get_matching_blocks_total sm) as [Ha Hb].
  destruct (new_fields (list_ascii_of_string (Py.lower s1))
              (list_ascii_of_string (Py.lower s2))) as (Ea & Eb & _).
  fold sm in Ea, Eb. rewrite Ea, Eb in *.
  rewrite !length_list_ascii, !length_lower in *.
  fold (total (difflib.get_matching_blocks sm)).
  set (M := total (difflib.get_matching_blocks sm)) in *.
  set (T := String.length s1 + String.length s2).
  unfold difflib.calculate_ratio. destruct (0 <? T) eqn:E.
  - apply Nat.ltb_lt in E. rewrite Qred_correct.
    unfold Qdiv. rewrite <- Qmult_assoc, (Qmult_comm (/ _)), Qmult_inv_r.
    + rewrite Qmult_1_r. apply Qmult_le_l; [done|].
      rewrite <- Zle_Qle. lia.
    + change 0%Q with (inject_Z 0). rewrite inject_Z_injective. lia.
  - apply Nat.ltb_ge in E. replace T with 0 by lia.
    rewrite Qmult_0_r. change 0%Q with (2 * inject_Z 0)%Q.
    apply Qmult_le_l; [done|]. rewrite <- Zle_Qle. lia.
Qed.


Lemma similarity_ratio_two_thirds s1 s2 :
  0 < String.length s1 + String.length s2 →
  2 * String.length s1 ≤ String.length s2
  ∨ 2 * String.length s2 ≤ String.length s1 →
  (similarity_ratio s1 s2 <= 2 # 3)%Q.
Proof.
  intros Hpos Hlen. pose proof (similarity_ratio_lengths s1 s2) as H.
  set (T := String.length s1 + String.length s2) in *.
  set (m := String.length s1 `min` String.length s2) in *.
  assert (3 * m ≤ T) as Hm by (unfold m, T; lia).
  assert (0 < inject_Z (Z.of_nat T))%Q as HT.
  { change 0%Q with (inject_Z 0). rewrite <- Zlt_Qlt. lia. }
  apply (Qmult_le_r _ _ _ HT).
  eapply Qle_trans; [exact H|].
  change 2%Q with (inject_Z 2). rewrite <- inject_Z_mult.
  unfold Qle; simpl. lia.
Qed.

(** X11. Take a candidate whose comparison strings are obtained without an
    error, and a title threshold above 2/3, as the default 0.7 is. If the
    compared title and the track's song name are not both empty, and one of
    the two is at least twice as long as the other, the candidate is not
    accepted, whatever the characters are: its evaluation returns no url.
    (Two empty titles are equal, and score 1.) *)
Theorem lopsided_title_rejected (entry : yt_result) (track : track_info)
    (tol tt at_ : Q) (ar : list string) (t : string)
    (Hcmp : comparison_strings entry = Ok (ar, t))
    (Htt : (2 # 3 < tt)%Q)
    (Hpos : 0 < String.length t + String.length (song_name track))
    (Hlen : 2 * String.length t ≤ String.length (song_name track)
            ∨ 2 * String.length (song_name track) ≤ String.length t) :
  ∃ title_score artist_score,
    search_single_track entry track tol tt at_
    = Ok (None, title_score, artist_score).
Proof.
  destruct (search_single_track_cases entry track tol tt at_)
    as [[_ H]|[(_ & e & Hc & _)|(_ & ar' & t' & Hc & H)]];
    [by eauto|congruence|].
  rewrite Hcmp in Hc. injection Hc as <- <-. rewrite H. simpl.
  rewrite (proj2 (Qgtb_true tt (similarity_ratio t (song_name track)))).
  - simpl. eauto.
  - eapply Qle_lt_trans; [|exact Htt].
    by apply similarity_ratio_two_thirds.
Qed.

Lemma lopsided_title_rejected_witness :
  ∃ title_score artist_score,
    search_single_track
      {| duration := 100; title := "X (Official Video)";
         artist := Some ["A"]; webpage_url := "u" |}
      track_X 10 (7 # 10) (5 # 100) = Ok (None, title_score, artist_score).
Proof.
  apply (lopsided_title_rejected _ track_X 10 (7 # 10) (5 # 100)
           ["A"] "X (Official Video)").
  - reflexivity.
  - reflexivity.
  - simpl. lia.
  - right. simpl. lia.
Defined.

Lemma indices_from_absent i c l : c ∉ l → indices_from i c l = [].
Proof.
  revert i. induction l as [|e l IH]; intros i Hc; simpl; [done|].
  apply not_elem_of_cons in Hc as [Hne Hc].
  rewrite decide_False by done. by apply IH.
Qed.

Lemma getitem_elem (l : list ascii) i : i < length l → difflib.getitem l i ∈ l.
Proof. intros H. apply list_elem_of_In, nth_In, H. Qed.

Section disjoint.
Variable sm : difflib.SequenceMatcher.
Variables xa xb : list ascii.
Hypothesis Hsa : difflib.a sm = xa.
Hypothesis Hsb : difflib.b sm = xb.
Hypothesis Hb2j :
  ∀ c idxs, difflib.b2j sm !! c = Some idxs → idxs = indices_from 0 c xb.
Hypothesis Hdisjoint : ∀ c, c ∈ xa → c ∉ xb.

Lemma outer_loop_disjoint blo bhi rows best j2len :
  (∀ i, i ∈ rows → i < length xa) →
  difflib.outer_loop sm blo bhi rows best j2len = best.
Proof.
  revert j2len. induction rows as [|i rows IH]; intros j2len Hrows; [done|].
  cbn [difflib.outer_loop]. rewrite Hsa.
  assert (default [] (difflib.b2j sm !! difflib.getitem xa i) = []) as ->.
  { destruct (difflib.b2j sm !! difflib.getitem xa i) as [idxs|] eqn:E;
      [|done].
    rewrite (Hb2j _ _ E). simpl. apply indices_from_absent, Hdisjoint.
    apply getitem_elem, Hrows. by left. }
  cbn [difflib.inner_loop]. apply IH. intros; apply Hrows. by right.
Qed.

Lemma extend_right_disjoint n junk :
  difflib.extend_right sm (length xa) (length xb) n junk 0 0 0 = (0, 0, 0).
Proof.
  destruct n as [|n]; [done|]. cbn [difflib.extend_right].
  rewrite Hsa, Hsb.
  destruct xa as [|ca xa'] eqn:Ea; [done|].
  destruct xb as [|cb xb'] eqn:Eb; [done|].
  rewrite (bool_decide_eq_false_2 (difflib.getitem _ (0 + 0) = _)).
  - by rewrite andb_false_r.
  - unfold difflib.getitem. simpl. intros ->.
    apply (Hdisjoint cb); by left.
Qed.

Lemma find_longest_match_disjoint :
  difflib.find_longest_match sm 0 (length xa) 0 (length xb) = (0, 0, 0).
Proof.
  unfold difflib.find_longest_match.
  rewrite outer_loop_disjoint.
  - cbn [difflib.extend_left]. rewrite extend_right_disjoint.
    cbn [difflib.extend_left]. apply extend_right_disjoint.
  - intros i Hi%list_elem_of_In%in_seq. lia.
Qed.

Lemma get_matching_blocks_disjoint :
  total (difflib.get_matching_blocks sm) = 0.
Proof.
  destruct (get_matching_blocks_runs sm) as (blocks & Hb & ->).
  rewrite Hsa, Hsb in *.
  replace (2 * length xa + 1) with (S (2 * length xa)) in Hb by lia.
  cbn [difflib.blocks_loop] in Hb.
  rewrite find_longest_match_disjoint in Hb.
  change (0 <? 0) with false in Hb. cbv iota in Hb.
  rewrite blocks_loop_nil in Hb. injection Hb as <-.
  by rewrite total_app, total_collapse, total_sort.
Qed.
End disjoint.

Lemma calculate_ratio_none len : 0 < len → difflib.calculate_ratio 0 len = 0%Q.
Proof.
  intros H. unfold difflib.calculate_ratio.
  rewrite (proj2 (Nat.ltb_lt 0 len)) by done.
  change 0%Q with (Qred 0). apply Qred_complete.
  change (inject_Z (Z.of_nat 0)) with 0%Q.
  unfold Qdiv. by rewrite Qmult_0_r, Qmult_0_l.
Qed.

(** X12. Two strings that, lower-cased, have no character in common, and
    are not both empty, have similarity 0. *)
Theorem similarity_disjoint (s1 s2 : string)
    (Hdisjoint : ∀ c, c ∈ list_ascii_of_string (Py.lower s1) →
                      c ∉ list_ascii_of_string (Py.lower s2))
    (Hpos : 0 < String.length s1 + String.length s2) :
  similarity_ratio s1 s2 = 0%Q.
Proof.
  unfold similarity_ratio, difflib.ratio.
  set (xa := list_ascii_of_string (Py.lower s1)) in *.
  set (xb := list_ascii_of_string (Py.lower s2)) in *.
  destruct (new_fields xa xb) as (Ha & Hb & Hj).
  fold (total (difflib.get_matching_blocks (difflib.new xa xb))).
  rewrite (get_matching_blocks_disjoint _ xa xb Ha Hb
             (new_b2j_lookup xa xb) Hdisjoint).
  rewrite Ha, Hb. apply calculate_ratio_none.
  unfold xa, xb. by rewrite !length_list_ascii, !length_lower.
Qed.

Lemma similarity_disjoint_witness : similarity_ratio "ABBA" "Queen" = 0%Q.
Proof.
  apply similarity_disjoint.
  - intros c Hc Hc'. vm_compute in Hc, Hc'.
    repeat (apply elem_of_cons in Hc as [->|Hc];
            [repeat (apply elem_of_cons in Hc' as [Hc'|Hc']; [discriminate|]);
             by apply elem_of_nil in Hc'|]).
    by apply elem_of_nil in Hc.
  - simpl. lia.
Defined.

(** ** Resolving one track *)

Lemma collect_matches_inv completed matches ms :
  collect_matches completed matches = Ok ms →
  ∀ m, m ∈ ms → m ∈ matches ∨ (Ok m ∈ completed ∧ accepted m = true).
Proof.
  revert matches. induction completed as [|f completed IH]; intros matches H.
  { injection H as <-. auto. }
  destruct f as [m0|e0]; [|done]. cbn [collect_matches] in H.
  rewrite ok_bind in H. intros m Hm.
  destruct (IH _ H m Hm) as [Hin|[Hin Ha]].
  - destruct (truthy m0.1.1) eqn:E; [|by left].
    apply elem_of_app in Hin as [Hin|Hin%list_elem_of_singleton]; [by left|].
    subst m0. right. split; [by left|done].
  - right. split; [by right|done].
Qed.

Lemma collect_matches_raise_inv completed matches e :
  collect_matches completed matches = Raise e → Raise e ∈ completed.
Proof.
  revert matches. induction completed as [|f completed IH]; intros matches H;
    [done|].
  destruct f as [m0|e0]; cbn [collect_matches] in H.
  - rewrite ok_bind in H. right. by eapply IH.
  - rewrite raise_bind in H. injection H as ->. by left.
Qed.

Lemma max_by_score_elem best rest : max_by_score best rest ∈ best :: rest.
Proof.
  revert best. induction rest as [|x rest IH]; intros best; simpl; [by left|].
  specialize (IH (if Qgtb (score x) (score best) then x else best)).
  apply elem_of_cons in IH as [->|IH]; [|by do 2 right].
  destruct (Qgtb _ _); [right|]; by left.
Qed.

Lemma futures_elem {A} (f : yt_result → A) completion entries x :
  x ∈ as_completed completion (map f entries) →
  ∃ entry, entry ∈ entries ∧ f entry = x.
Proof.
  intros H%as_completed_sub%list_elem_of_In%in_map_iff.
  destruct H as (entry & <- & Hin). exists entry.
  split; [by apply list_elem_of_In|done].
Qed.

Lemma truthy_nonempty url : truthy (Some url) = true → url ≠ "".
Proof. by destruct url. Qed.

Lemma search_youtube_single_track_ok extract_info completion track max_results
    tol tt at_ u t :
  search_youtube_single_track extract_info completion track max_results
    tol tt at_ = Ok (u, t) →
  t = full_title track
  ∧ ∃ entries,
      extract_info (ytsearch max_results track) = Ok entries
      ∧ ∀ url, u = Some url →
          url ≠ ""
          ∧ ∃ entry title_score artist_score,
              entry ∈ entries
              ∧ search_single_track entry track tol tt at_
                = Ok (Some url, title_score, artist_score).
Proof.
  unfold search_youtube_single_track. fold (ytsearch max_results track).
  destruct (extract_info _) as [entries|e0]; [|done].
  destruct (collect_matches _ _) as [ms|e1] eqn:Hcol;
    [|rewrite raise_bind; done].
  rewrite ok_bind. pose proof (collect_matches_inv _ _ _ Hcol) as Hinv.
  destruct ms as [|m ms].
  { intros [= <- <-]. split; [done|]. by exists entries. }
  pose proof (max_by_score_elem m ms) as Hbest.
  destruct (max_by_score m ms) as [[url ts] as_] eqn:Eb.
  intros [= <- <-]. split; [done|]. exists entries. split; [done|].
  intros url' ->.
  destruct (Hinv _ Hbest) as [[]%elem_of_nil|[Hin Ha]].
  split; [by apply truthy_nonempty|].
  apply (futures_elem
           (fun entry => search_single_track entry track tol tt at_)
           completion entries) in Hin as (entry & Hentry & Heq).
  eauto.
Qed.

(** X13. What [search_youtube_single_track] returns. The second component
    is always the track's [full_title]. A returned url is never empty, and
    it is the [webpage_url] of one of the entries the search gave back, one
    that lies within the duration tolerance and whose two scores reach the
    thresholds. *)
Theorem resolution_sound
    (extract_info : string → outcome (list yt_result))
    (completion : list nat) (track : track_info) (max_results : nat)
    (tol tt at_ : Q) (u : option string) (t : string)
    (Hret : search_youtube_single_track extract_info completion track
              max_results tol tt at_ = Ok (u, t)) :
  t = full_title track
  ∧ ∃ entries,
      extract_info (ytsearch max_results track) = Ok entries
      ∧ ∀ url, u = Some url →
          url ≠ ""
          ∧ ∃ entry title_score artist_score,
              entry ∈ entries ∧ url = webpage_url entry
              ∧ search_single_track entry track tol tt at_
                = Ok (Some url, title_score, artist_score)
              ∧ (duration_diff entry track <= tol)%Q
              ∧ (tt <= title_score)%Q ∧ (at_ <= artist_score)%Q.
Proof.
  apply search_youtube_single_track_ok in Hret as (-> & entries & Hs & Hu).
  split; [done|]. exists entries. split; [done|].
  intros url Hurl. destruct (Hu url Hurl) as (Hne & entry & ts & as_ & Hin & He).
  split; [done|]. exists entry, ts, as_.
  destruct (search_single_track_accepts _ _ _ _ _ _ _ _ He)
    as (? & ? & ? & ? & _).
  done.
Qed.

Lemma resolution_sound_witness :
  "A - X" = full_title track_X ∧ "u2" ≠ "".
Proof.
  destruct (resolution_sound (search_returns [entry_u1; entry_u2]) [1; 0]
              track_X 5 10 (7 # 10) (5 # 100) (Some "u2") "A - X")
    as (H1 & entries & _ & H2).
  - vm_compute. reflexivity.
  - split; [exact H1|]. by destruct (H2 "u2" eq_refl).
Defined.

Lemma search_youtube_single_track_raise extract_info completion track
    max_results tol tt at_ e :
  search_youtube_single_track extract_info completion track max_results
    tol tt at_ = Raise e →
  (∃ e0, extract_info (ytsearch max_results track) = Raise e0
         ∧ e = RuntimeError ("Error searching YouTube: " +:+ exn_str e0))
  ∨ (∃ entries entry,
       extract_info (ytsearch max_results track) = Ok entries
       ∧ entry ∈ entries
       ∧ search_single_track entry track tol tt at_ = Raise e
       ∧ (e = not_enough ∨ e = too_many)).
Proof.
  unfold search_youtube_single_track. fold (ytsearch max_results track).
  destruct (extract_info _) as [entries|e0].
  - destruct (collect_matches _ _) as [ms|e1] eqn:Hcol.
    + rewrite ok_bind. destruct ms as [|m ms]; [done|].
      by destruct (max_by_score m ms) as [[??]?].
    + rewrite raise_bind. intros [= ->]. right.
      apply collect_matches_raise_inv in Hcol.
      apply (futures_elem
               (fun entry => search_single_track entry track tol tt at_)
               completion entries) in Hcol as (entry & Hin & He).
      exists entries, entry. split_and!; try done.
      by destruct (search_single_track_raise_inv _ _ _ _ _ _ He)
        as (_ & _ & _ & ?).
  - intros [= <-]. left. by exists e0.
Qed.

(** X14. The errors of [search_youtube_single_track] are of two kinds. A
    failing search comes out as a [RuntimeError] whose message is
    "Error searching YouTube: " followed by the text of the error. With a
    successful search, the call raises only what the evaluation of one of
    the returned entries raised: the [ValueError] of a title that could not
    be unpacked. *)
Theorem resolution_errors
    (extract_info : string → outcome (list yt_result))
    (completion : list nat) (track : track_info) (max_results : nat)
    (tol tt at_ : Q) (e : exn)
    (Hraise : search_youtube_single_track extract_info completion track
                max_results tol tt at_ = Raise e) :
  (∃ e0, extract_info (ytsearch max_results track) = Raise e0
         ∧ e = RuntimeError ("Error searching YouTube: " +:+ exn_str e0))
  ∨ (∃ entries entry,
       extract_info (ytsearch max_results track) = Ok entries
       ∧ entry ∈ entries
       ∧ search_single_track entry track tol tt at_ = Raise e
       ∧ (e = not_enough ∨ e = too_many)).
Proof. exact (search_youtube_single_track_raise _ _ _ _ _ _ _ _ Hraise). Qed.

Lemma resolution_errors_witness :
  ∃ e0, search_fails_for "ytsearch5:A - X autogenerated" (ytsearch 5 track_X)
        = Raise e0.
Proof.
  destruct (resolution_errors
              (search_fails_for "ytsearch5:A - X autogenerated") [] track_X 5
              10 (7 # 10) (5 # 100)
              (RuntimeError "Error searching YouTube: network down"))
    as [(e0 & H & _)|(entries & entry & H & _)].
  - vm_compute. reflexivity.
  - exists e0. exact H.
  - vm_compute in H. discriminate.
Defined.

(** ** Downloading and the batch *)

Lemma download_track_spec extract_info download dir completion track
    failed_tracks r failed_tracks' :
  download_track extract_info download dir completion track failed_tracks
    = (r, failed_tracks') →
  (failed_tracks' = failed_tracks
   ∨ failed_tracks' = failed_tracks ++ [full_title track])
  ∧ (∀ e, r = Raise e ↔
          search_youtube_default extract_info completion track = Raise e)
  ∧ (∀ e, r = Raise e → failed_tracks' = failed_tracks).
Proof.
  unfold download_track.
  destruct (search_youtube_default extract_info completion track)
    as [[u t]|e0] eqn:Hres.
  - apply search_youtube_single_track_ok in Hres as [-> _].
    destruct u as [url|].
    + destruct (download _ url); intros [= <- <-]; split_and!; auto;
        naive_solver.
    + intros [= <- <-]. split_and!; auto; naive_solver.
  - intros [= <- <-]. split_and!; auto. naive_solver.
Qed.

(** X15. [download_track] only ever appends to the failure list, and at
    most the [full_title] of its own track. It raises exactly when resolving
    the track raised (a failing search or a title that cannot be unpacked),
    and then the list is left as it was: the track is not recorded. A
    failing download never raises. *)
Theorem failure_log_append_only
    (extract_info : string → outcome (list yt_result))
    (download : string → string → outcome unit) (dir : string)
    (completion : list nat) (track : track_info)
    (failed_tracks : list string) :
  let r := download_track extract_info download dir completion track
             failed_tracks in
  (r.2 = failed_tracks ∨ r.2 = failed_tracks ++ [full_title track])
  ∧ (∀ e, r.1 = Raise e ↔
          search_youtube_default extract_info completion track = Raise e)
  ∧ (∀ e, r.1 = Raise e → r.2 = failed_tracks).
Proof.
  intros r. subst r.
  destruct (download_track _ _ _ _ _ _) as [r f'] eqn:E.
  by apply download_track_spec in E.
Qed.










(** ** Building the track records *)

Lemma get_info_single_track_cases item :
  get_info_single_track item = Raise too_many
  ∨ ∃ arts t,
      process_spotify_song_name (track_artists item) (track_name item)
        = Ok (arts, t)
      ∧ get_info_single_track item =
          Ok {| artists := arts;
                song_name := t;
                duration_ms := inject_Z (track_duration_ms item) / 1000;
                search_query :=
                  Py.join " " arts +:+ " - " +:+ t +:+ " autogenerated";
                full_title := Py.join ", " arts +:+ " - " +:+ t |}.
Proof.
  unfold get_info_single_track.
  destruct (decide (Exists (fun m => 2 ≤ Py.count m (track_name item))
                           feat_strings)) as [Hex|Hno].
  - left. apply Exists_exists in Hex as (m & Hm & Hc).
    unfold process_spotify_song_name.
    rewrite spotify_loop_many; [done|apply feat_strings_nonempty|eauto].
  - right. rewrite process_spotify_song_name_once.
    + rewrite ok_bind. eauto.
    + intros m Hm. destruct (decide (Py.count m (track_name item) ≤ 1));
        [done|].
      exfalso. apply Hno, Exists_exists. exists m. split; [done|lia].
Qed.

Lemma get_info_tracks_Forall2 items tracks :
  get_info_tracks items = Ok tracks ↔
  Forall2 (fun item track => get_info_single_track item = Ok track)
          items tracks.
Proof.
  revert tracks. induction items as [|item items IH]; intros tracks; simpl.
  { split; [intros [= <-]; constructor|intros H; by inversion H]. }
  destruct (get_info_single_track item) as [info|e] eqn:E.
  - rewrite ok_bind. destruct (get_info_tracks items) as [ts|e] eqn:E'.
    + rewrite ok_bind. split.
      * intros [= <-]. constructor; [done|]. by apply IH.
      * intros H. inversion H as [|? t ? ts' Ht Hts]; subst.
        apply IH in Hts. congruence.
    + rewrite raise_bind. split; [done|].
      intros H. inversion H as [|? t ? ts' Ht Hts]; subst.
      apply IH in Hts. congruence.
  - rewrite raise_bind. split; [done|].
    intros H. inversion H as [|? t ? ts' Ht Hts]; subst. congruence.
Qed.

(** X17. [get_info_tracks] returns exactly when every liked song can be
    turned into a track record, and then the records come one per song, in
    the order of the songs. *)
Theorem tracks_follow_liked_songs (items : list spotify_track)
    (tracks : list track_info) :
  get_info_tracks items = Ok tracks ↔
  Forall2 (fun item track => get_info_single_track item = Ok track)
          items tracks.
Proof. apply get_info_tracks_Forall2. Qed.

Lemma get_info_tracks_raise items item m :
  item ∈ items → m ∈ feat_strings → 2 ≤ Py.count m (track_name item) →
  get_info_tracks items = Raise too_many.
Proof.
  intros Hin Hm Hc. induction items as [|i0 items IH];
    [by apply elem_of_nil in Hin|].
  cbn [get_info_tracks]. apply elem_of_cons in Hin as [<-|Hin].
  - assert (get_info_single_track item = Raise too_many) as ->; [|done].
    unfold get_info_single_track, process_spotify_song_name.
    rewrite spotify_loop_many; [done|apply feat_strings_nonempty|eauto].
  - destruct (get_info_single_track_cases i0) as [H|(a & t & _ & H)];
      rewrite H; [done|].
    rewrite ok_bind, IH by done. done.
Qed.

(** X18. One liked song whose name holds a marker at two or more positions
    stops the whole run: building the track list raises the unpacking
    [ValueError], so the script ends with it before any search or download
    is made, whatever the backends would have answered. *)
Theorem repeated_marker_stops_the_run
    (extract_info : string → outcome (list yt_result))
    (download : string → string → outcome unit) (dir : string)
    (processes : nat) (completions : list (list nat))
    (liked_songs : list spotify_track) (item : spotify_track) (m : string)
    (Hitem : In item liked_songs) (Hm : In m feat_strings)
    (Htwice : 2 ≤ occurrences m (track_name item)) :
  get_info_tracks liked_songs = Raise too_many
  ∧ main extract_info download dir processes completions liked_songs
    = Raise too_many.
Proof.
  apply list_elem_of_In in Hitem, Hm.
  rewrite <- marker_count in Htwice by done.
  pose proof (get_info_tracks_raise _ _ _ Hitem Hm Htwice) as H.
  split; [done|]. unfold main. by rewrite H.
Qed.

Lemma repeated_marker_stops_the_run_witness :
  main (search_returns [entry_u1]) download_ok "dir" 1 [[0]; [0]]
    [liked_X; {| track_artists := ["B"]; track_name := "Y ft. C ft. D";
                 track_duration_ms := 1000 |}]
  = Raise too_many.
Proof.
  apply (repeated_marker_stops_the_run _ _ _ _ _ _
           {| track_artists := ["B"]; track_name := "Y ft. C ft. D";
              track_duration_ms := 1000 |} " ft.").
  - simpl. tauto.
  - simpl. tauto.
  - vm_compute. lia.
Defined.

(** X19. Every track record that [get_info_single_track] builds is
    consistent: its [full_title] is its artists joined by ", ", then " - ",
    then its song name; its [search_query] is its artists joined by blanks,
    then " - ", the song name and " autogenerated"; its duration is the
    catalog's milliseconds divided by 1000; its song name is trimmed; and
    its artists start with the catalog's artists, in their order. *)
Theorem track_record_consistent (item : spotify_track) (track : track_info)
    (Hok : get_info_single_track item = Ok track) :
  full_title track
  = Py.join ", " (artists track) +:+ " - " +:+ song_name track
  ∧ search_query track
    = Py.join " " (artists track) +:+ " - " +:+ song_name track
      +:+ " autogenerated"
  ∧ duration_ms track = (inject_Z (track_duration_ms item) / 1000)%Q
  ∧ Py.strip (song_name track) = song_name track
  ∧ ∃ added, artists track = track_artists item ++ added.
Proof.
  destruct (get_info_single_track_cases item) as [H|(arts & t & Hp & H)];
    rewrite H in Hok; [done|].
  injection Hok as <-. simpl. split_and!; try done.
  - apply process_spotify_song_name_inv in Hp as (_ & t0 & _ & ->).
    apply strip_idempotent.
  - apply process_spotify_song_name_inv in Hp as (ar & _ & -> & _).
    destruct (append_new_spec (track_artists item) ar) as (added & -> & _).
    by exists added.
Qed.

Lemma track_record_consistent_witness :
  ∃ track, get_info_single_track liked_X = Ok track
           ∧ full_title track = "A - X".
Proof.
  assert (∃ track, get_info_single_track liked_X = Ok track) as [track H]
    by (vm_compute; eauto).
  exists track. split; [exact H|].
  destruct (track_record_consistent liked_X track H) as [Hf _].
  rewrite Hf. vm_compute in H. injection H as <-. reflexivity.
Defined.

(** ** Featured names *)

Lemma prefix_nil s : String.prefix "" s = true.
Proof. by destruct s. Qed.

Lemma replace_paren_avoids s : avoids ")"%char (Py.replace ")" "" s) = true.
Proof.
  unfold Py.replace. induction s as [|c s IH]; [done|].
  cbn [Py.replace_go]. rewrite prefix_cons, prefix_nil.
  destruct (ascii_dec ")"%char c) as [<-|Hne].
  - by rewrite append_nil_l.
  - simpl. rewrite IH, andb_true_r. apply negb_true_iff.
    apply Ascii.eqb_neq. congruence.
Qed.

Lemma lstrip_avoids h s : avoids h s = true → avoids h (Py.lstrip s) = true.
Proof.
  induction s as [|c s IH]; [done|]. intros H. simpl.
  destruct (Py.isspace c); [|done].
  simpl in H. apply andb_true_iff in H as [_ H]. by apply IH.
Qed.

Lemma rstrip_avoids h s : avoids h s = true → avoids h (Py.rstrip s) = true.
Proof.
  induction s as [|c s IH]; [done|]. intros H.
  simpl in H. apply andb_true_iff in H as [Hc H]. specialize (IH H).
  cbn [Py.rstrip]. destruct (Py.rstrip s) as [|d r].
  - destruct (Py.isspace c); [done|]. simpl. by rewrite Hc.
  - cbn [avoids] in *. by rewrite Hc, IH.
Qed.

Lemma parse_featured_clean s x : x ∈ parse_featured s → clean_name x.
Proof.
  unfold parse_featured. intros H%list_elem_of_In%in_map_iff.
  destruct H as (y & <- & _). split; [apply strip_idempotent|].
  apply rstrip_avoids, lstrip_avoids, replace_paren_avoids.
Qed.

Lemma spotify_loop_clean ms st t ar t' ar' :
  spotify_loop ms st t ar = Ok (t', ar') →
  (∀ x, x ∈ ar → clean_name x) → ∀ x, x ∈ ar' → clean_name x.
Proof.
  revert t ar. induction ms as [|m ms IH]; intros t ar H Har.
  { by injection H as <- <-. }
  change (spotify_loop (m :: ms) st t ar)
    with (if Py.contains m st then
            '(t0, featured_artists) ← unpack2 (Py.split m st);
            spotify_loop ms st (Some t0) (ar ++ parse_featured featured_artists)
          else spotify_loop ms st t ar) in H.
  destruct (Py.contains m st); [|by eapply IH].
  destruct (unpack2 (Py.split m st)) as [[t0 fa]|e]; [|done].
  rewrite ok_bind in H. eapply IH; [exact H|].
  intros x [Hx|Hx]%elem_of_app; [by apply Har|by eapply parse_featured_clean].
Qed.

(** X20. Every name that [process_spotify_song_name] adds to the artists is
    trimmed and holds no closing parenthesis. *)
Theorem added_names_clean (song_artists : list string) (song_title : string)
    (arts : list string) (t : string)
    (Hok : process_spotify_song_name song_artists song_title = Ok (arts, t)) :
  ∃ added,
    arts = song_artists ++ added ∧ ∀ x, x ∈ added → clean_name x.
Proof.
  unfold process_spotify_song_name in Hok.
  destruct (spotify_loop feat_strings song_title None []) as [[t' ar]|e]
    eqn:Hloop; [|done].
  rewrite ok_bind in Hok. cbv beta iota zeta in Hok.
  destruct (match ar with [] => Some song_title | _ => t' end); [|done].
  injection Hok as <- <-.
  destruct (append_new_spec song_artists ar) as (added & -> & _ & Hin & _).
  exists added. split; [done|]. intros x [Hx _]%Hin.
  eapply spotify_loop_clean; [exact Hloop| |exact Hx].
  by intros ? ?%elem_of_nil.
Qed.

Lemma added_names_clean_witness :
  ∃ added, ["A"; "B"; "C"] = ["A"] ++ added ∧ ∀ x, x ∈ added → clean_name x.
Proof.
  apply (added_names_clean ["A"] "Song (feat. B & C )" ["A"; "B"; "C"] "Song").
  reflexivity.
Defined.

(** ** The hand-over order *)

Lemma search_youtube_best extract_info completion track max_results
    tol tt at_ entries results :
  extract_info (ytsearch max_results track) = Ok entries →
  map (fun entry => search_single_track entry track tol tt at_) entries
    = map Ok results →
  Permutation completion (seq 0 (length entries)) →
  ((∀ m, m ∈ results → accepted m = false)
   ∧ search_youtube_single_track extract_info completion track max_results
       tol tt at_ = Ok (None, full_title track))
  ∨ (∃ best url,
       best ∈ results ∧ accepted best = true ∧ best.1.1 = Some url
       ∧ search_youtube_single_track extract_info completion track
           max_results tol tt at_ = Ok (Some url, full_title track)
       ∧ ∀ x, x ∈ results → accepted x = true → (score x <= score best)%Q).
Proof.
  intros Hs He Hp.
  rewrite (search_youtube_no_error _ _ _ _ _ _ _ entries results) by done.
  assert (length results = length entries) as Hlen.
  { apply (f_equal length) in He. by rewrite !length_map in He. }
  destruct (List.filter accepted (as_completed completion results))
    as [|m ms] eqn:E.
  - left. split; [|done]. intros x Hx.
    destruct (accepted x) eqn:Ha; [|done].
    assert (x ∈ List.filter accepted (as_completed completion results)) as Hin.
    { apply accepted_filter_elem. split; [|done].
      apply as_completed_all; [by rewrite Hlen|done]. }
    rewrite E in Hin. by apply elem_of_nil in Hin.
  - right.
    destruct (max_by_score_first [m] m ms 0) as (i & Hi & _ & Hle);
      [done|intros; lia| |].
    { intros j x Hx. apply list_lookup_singleton_Some in Hx as [_ <-].
      apply Qle_refl. }
    simpl in Hi, Hle.
    assert (max_by_score m ms
            ∈ List.filter accepted (as_completed completion results)) as Hbest
      by (rewrite E; by eapply list_elem_of_lookup_2).
    apply accepted_filter_elem in Hbest as [Hb1%as_completed_sub Hb2].
    assert (∃ url, (max_by_score m ms).1.1 = Some url) as [url Eu].
    { unfold accepted in Hb2. destruct (max_by_score m ms).1.1; [eauto|done]. }
    exists (max_by_score m ms), url. rewrite Eu. split_and!; try done.
    intros x Hx Hax.
    assert (x ∈ m :: ms) as [j Hj]%list_elem_of_lookup_1.
    { rewrite <- E. apply accepted_filter_elem. split; [|done].
      apply as_completed_all; [by rewrite Hlen|done]. }
    by eapply Hle.
Qed.

(** X21. The order in which [as_completed] hands the evaluations over
    decides between matches of equal key, and nothing else. With a
    successful search and no failing evaluation, two runs under any two
    hand-over orders either both return no url or both return one, and the
    two winners have the same key: the same float sum
    [title_score + artist_score]. *)
Theorem hand_over_order_only_breaks_ties
    (extract_info : string → outcome (list yt_result))
    (completion1 completion2 : list nat) (track : track_info)
    (max_results : nat) (tol tt at_ : Q)
    (entries : list yt_result) (results : list match_t)
    (Hsearch : extract_info (ytsearch max_results track) = Ok entries)
    (Heval : map (fun entry => search_single_track entry track tol tt at_)
                 entries = map Ok results)
    (Hperm1 : Permutation completion1 (seq 0 (length entries)))
    (Hperm2 : Permutation completion2 (seq 0 (length entries))) :
  let resolve completion :=
    search_youtube_single_track extract_info completion track max_results
      tol tt at_ in
  (resolve completion1 = Ok (None, full_title track)
   ∧ resolve completion2 = Ok (None, full_title track))
  ∨ (∃ m1 m2 url1 url2,
       m1 ∈ results ∧ m2 ∈ results
       ∧ m1.1.1 = Some url1 ∧ m2.1.1 = Some url2
       ∧ resolve completion1 = Ok (Some url1, full_title track)
       ∧ resolve completion2 = Ok (Some url2, full_title track)
       ∧ (score m1 == score m2)%Q).
Proof.
  intros resolve. subst resolve. cbv beta.
  destruct (search_youtube_best _ completion1 _ _ _ _ _ _ _ Hsearch Heval
              Hperm1) as [[Hn1 H1]|(m1 & u1 & Hin1 & Ha1 & Hu1 & H1 & Hmax1)];
    destruct (search_youtube_best _ completion2 _ _ _ _ _ _ _ Hsearch Heval
                Hperm2)
      as [[Hn2 H2]|(m2 & u2 & Hin2 & Ha2 & Hu2 & H2 & Hmax2)].
  - by left.
  - specialize (Hn1 m2 Hin2). congruence.
  - specialize (Hn2 m1 Hin1). congruence.
  - right. exists m1, m2, u1, u2. split_and!; try done.
    apply Qle_antisym; auto.
Qed.

Lemma hand_over_order_only_breaks_ties_witness :
  search_youtube_single_track (search_returns [entry_u1; entry_u2]) [0; 1]
    track_X 5 10 (7 # 10) (5 # 100) = Ok (Some "u1", "A - X")
  ∧ search_youtube_single_track (search_returns [entry_u1; entry_u2]) [1; 0]
      track_X 5 10 (7 # 10) (5 # 100) = Ok (Some "u2", "A - X").
Proof.
  destruct (hand_over_order_only_breaks_ties
              (search_returns [entry_u1; entry_u2]) [0; 1] [1; 0] track_X 5
              10 (7 # 10) (5 # 100) [entry_u1; entry_u2]
              [(Some "u1", 1%Q, 1%Q); (Some "u2", 1%Q, 1%Q)])
    as [[H _]|(m1 & m2 & u1 & u2 & _ & _ & _ & _ & H1 & H2 & _)].
  - reflexivity.
  - vm_compute. reflexivity.
  - reflexivity.
  - apply perm_swap.
  - vm_compute in H. discriminate.
  - split.
    + rewrite H1. vm_compute in H1. injection H1 as <-. reflexivity.
    + rewrite H2. vm_compute in H2. injection H2 as <-. reflexivity.
Defined.
